(** * GoMattGo: the rules engine of [game_state.py] and [piece.py]

    A shallow embedding of the Go rules engine (board, groups, liberties,
    capture resolution, ko detection, the [update] operation) together
    with the properties of the engine that are proved about it.

    Conventions of the embedding.
    - Python [int]s are [Z]; list indexing follows Python (negative
      indices count from the end, anything else raises [IndexError]).
    - A Python [set] is a [gset]; [elements] plays the role of the
      unspecified iteration order of a set.
    - Exceptions are values of [exn]; code that can raise returns a
      [result]; code that mutates an object is a function from the
      object to a [result] paired with the object as the call left it.
    - Classes without [__eq__] compare by identity.  [Board] objects
      carry their identity ([Board.id]); [Piece] objects are only ever
      compared inside one call of [get_groups], where every object has
      its own coordinates, so identity and structural equality agree
      ([pieces_NoDup]).
    - Python's [hash] on strings differs from one interpreter to the
      next; it is a parameter [str_hash] of what depends on it. *)

From Stdlib Require Import ZArith String Lia.
From stdpp Require Import base decidable option list gmap sets countable.

#[local] Set Warnings "-clear-no-such-hyp".

Local Open Scope Z_scope.

(* ===================================================================== *)
(** ** Python runtime: exceptions, results, list indexing              *)
(* ===================================================================== *)

Inductive exn : Set :=
  | IllegalMoveError
  | NotImplementedError
  | IndexError
  | RecursionError.

Inductive result (A : Type) : Type :=
  | Ok (a : A)
  | Raise (e : exn).
Arguments Ok {A} a.
Arguments Raise {A} e.

#[global] Instance exn_eq_dec : EqDecision exn.
Proof. solve_decision. Defined.

#[global] Instance result_eq_dec {A} `{EqDecision A} : EqDecision (result A).
Proof. solve_decision. Defined.

#[global] Instance result_ret : MRet result := @Ok.
#[global] Instance result_bind : MBind result := λ A B f m,
  match m with
  | Ok a => f a
  | Raise e => Raise e
  end.

(** [for x in l: acc = f acc x], stopping at the first exception. *)
Fixpoint foldM {A B : Type} (f : A → B → result A) (l : list B) (a : A)
  : result A :=
  match l with
  | [] => Ok a
  | x :: l' => a' ← f a x; foldM f l' a'
  end.

(** A method that mutates its receiver [S]: the outcome and the receiver
    as the call left it (also when it raised). *)
Definition M (S A : Type) : Type := S → result A * S.

Definition ret {S A} (a : A) : M S A := λ s, (Ok a, s).
Definition raise {S A} (e : exn) : M S A := λ s, (Raise e, s).
Definition bind {S A B} (m : M S A) (k : A → M S B) : M S B := λ s,
  match m s with
  | (Ok a, s') => k a s'
  | (Raise e, s') => (Raise e, s')
  end.
(** A read-only call on the receiver. *)
Definition reads {S A} (f : S → result A) : M S A := λ s, (f s, s).
(** A single assignment: either it happens or it raises and nothing
    has changed. *)
Definition assign {S} (f : S → result S) : M S unit := λ s,
  match f s with
  | Ok s' => (Ok tt, s')
  | Raise e => (Raise e, s)
  end.

Notation "'let!' x ':=' m 'in' k" := (bind m (λ x, k))
  (at level 10, x name, m at level 100, k at level 200).

Fixpoint for_each {S B : Type} (l : list B) (body : B → M S unit)
  : M S unit :=
  match l with
  | [] => ret tt
  | x :: l' => let! _ := body x in for_each l' body
  end.

(** [l[i]] index normalisation for a list of length [len]. *)
Definition py_index (len : nat) (i : Z) : result nat :=
  if decide (0 ≤ i < Z.of_nat len) then Ok (Z.to_nat i)
  else if decide (- Z.of_nat len ≤ i < 0) then Ok (Z.to_nat (Z.of_nat len + i))
  else Raise IndexError.

Definition getitem {A} (l : list A) (i : Z) : result A :=
  n ← py_index (length l) i;
  match l !! n with
  | Some x => Ok x
  | None => Raise IndexError
  end.

Definition setitem {A} (l : list A) (i : Z) (x : A) : result (list A) :=
  n ← py_index (length l) i;
  Ok (<[n := x]> l).

(* ===================================================================== *)
(** ** piece.py                                                        *)
(* ===================================================================== *)

Module Color.
Inductive t : Set := WHITE | BLACK.

#[global] Instance eq_dec : EqDecision t.
Proof. solve_decision. Defined.
End Color.

Module Piece.
Record t : Set := Piece { row : Z; col : Z; color : Color.t }.

#[global] Instance eq_dec : EqDecision t.
Proof. solve_decision. Defined.

#[global] Instance countable : Countable t.
Proof.
  refine (inj_countable'
            (λ p, (row p, col p, bool_decide (color p = Color.WHITE)))
            (λ '(r, c, w), Piece r c (if w then Color.WHITE else Color.BLACK)) _).
  intros [r c []]; reflexivity.
Defined.

Definition adjacent_coordinates (self : t) : list (Z * Z) :=
  (if row self >=? 1 then [(row self - 1, col self)] else []) ++
  (if row self <=? 17 then [(row self + 1, col self)] else []) ++
  (if col self >=? 1 then [(row self, col self - 1)] else []) ++
  (if col self <=? 17 then [(row self, col self + 1)] else []).
End Piece.

(* ===================================================================== *)
(** ** game_state.py                                                   *)
(* ===================================================================== *)

Module PositionState.
Inductive t : Set := EMPTY | WHITE | BLACK.

#[global] Instance eq_dec : EqDecision t.
Proof. solve_decision. Defined.

(** [str(x)] of an [enum.Enum] member. *)
Definition str (x : t) : string :=
  match x with
  | EMPTY => "PositionState.EMPTY"
  | WHITE => "PositionState.WHITE"
  | BLACK => "PositionState.BLACK"
  end%string.
End PositionState.

Module Group.
Record t : Type := Group {
  _pieces : gset Piece.t;
  liberties : gset (Z * Z)
}.

Definition liberal (self : t) : bool :=
  bool_decide (size (liberties self) ≠ 0%nat).

Definition pieces (self : t) : gset Piece.t := _pieces self.
End Group.

Module Board.

Record t : Type := Board {
  id : nat;                                  (* the object's identity *)
  _board : list (list PositionState.t)
}.

(** [Board()]: a fresh object holding 19 rows of 19 empty cells. *)
Definition __init__ (fresh : nat) : t :=
  {| id := fresh;
     _board := replicate 19 (replicate 19 PositionState.EMPTY) |}.

(** [self._board[r][c]]. *)
Definition cell (self : t) (r c : Z) : result PositionState.t :=
  rw ← getitem (_board self) r;
  getitem rw c.

(** [self._board[r][c] = cell_state]: the row is fetched, then written
    in place. *)
Definition set_cell (r c : Z) (cell_state : PositionState.t) (self : t)
  : result t :=
  rw ← getitem (_board self) r;
  rw' ← setitem rw c cell_state;
  grid ← setitem (_board self) r rw';
  Ok {| id := id self; _board := grid |}.

(** [__copy__] called on a fresh identity: new rows, same cells. *)
Definition __copy__ (self : t) (fresh : nat) : t :=
  {| id := fresh; _board := (λ r, r) <$> _board self |}.

(** The generator [pieces]: row-major, one new [Piece] per stone. *)
Definition pieces (self : t) : list Piece.t :=
  mjoin (imap (λ r_ind rw,
    mjoin (imap (λ c_ind position_state,
      match position_state with
      | PositionState.WHITE =>
          [Piece.Piece (Z.of_nat r_ind) (Z.of_nat c_ind) Color.WHITE]
      | PositionState.BLACK =>
          [Piece.Piece (Z.of_nat r_ind) (Z.of_nat c_ind) Color.BLACK]
      | PositionState.EMPTY => []
      end) rw)) (_board self)).

(** The generator [empty_positions]: row-major, the coordinates of the
    cells that hold [EMPTY]. *)
Definition empty_positions (self : t) : list (Z * Z) :=
  mjoin (imap (λ r_ind rw,
    mjoin (imap (λ col_ind ps,
      match ps with
      | PositionState.EMPTY => [(Z.of_nat r_ind, Z.of_nat col_ind)]
      | _ => []
      end) rw)) (_board self)).

(** The condition joins the two cases with [and]; the piece appended is
    [p], not [some_p]. *)
Definition find_adjacent_pieces (p : Piece.t) (pieces : list Piece.t)
  : list Piece.t :=
  mjoin ((λ some_p,
    if ((Z.abs (Piece.row p - Piece.row some_p) =? 1)
          && (Piece.col p =? Piece.col some_p))
       && ((Z.abs (Piece.col p - Piece.col some_p) =? 1)
          && (Piece.row p =? Piece.row some_p))
    then [p] else []) <$> pieces).

(** [build_group] mutates [group] in place and recurses once per adjacent
    piece found; [depth] is the number of interpreter frames left, and
    running out of them raises [RecursionError]. *)
Fixpoint build_group (depth : nat) (piece : Piece.t)
    (considered_pieces group : gset Piece.t) : result (gset Piece.t) :=
  match depth with
  | O => Raise RecursionError
  | S depth' =>
      let all_adj :=
        find_adjacent_pieces piece (elements (considered_pieces ∖ group)) in
      foldM (λ group adj,
               let group := group ∪ {[adj]} in
               build_group depth' adj (considered_pieces ∖ group) group)
            all_adj group
  end.

(** CPython's default [sys.getrecursionlimit()]. *)
Definition recursion_limit : nat := 1000.
Arguments recursion_limit : simpl never.

Definition count_liberties (self : t) (group : gset Piece.t)
  : result (gset (Z * Z)) :=
  foldM (λ liberties piece,
    foldM (λ liberties '(row, col),
      position_state ← cell self row col;
      match position_state with
      | PositionState.EMPTY => Ok (liberties ∪ {[(row, col)]})
      | _ => Ok liberties
      end) (Piece.adjacent_coordinates piece) liberties)
    (elements group) ∅.

Definition get_groups (self : t) (color : Color.t) : result (list Group.t) :=
  let all_pieces : gset Piece.t :=
    list_to_set (filter (λ p, Piece.color p = color) (pieces self)) in
  '(added_pieces, raw_groups) ←
    foldM (λ '(added_pieces, raw_groups) piece,
      if decide (piece ∈ added_pieces) then Ok (added_pieces, raw_groups)
      else
        group ← build_group recursion_limit piece
                  (all_pieces ∖ {[piece]}) {[piece]};
        Ok (added_pieces ∪ group, raw_groups ++ [group]))
      (elements all_pieces) (∅, []);
  foldM (λ groups raw_group,
           liberties ← count_liberties self raw_group;
           Ok (groups ++ [Group.Group raw_group liberties]))
        raw_groups [].

Definition remove_group (group : Group.t) : M t unit :=
  for_each (elements (Group.pieces group)) (λ piece,
    assign (set_cell (Piece.row piece) (Piece.col piece) PositionState.EMPTY)).

Definition is_position_occupied (self : t) (r c : Z) : result bool :=
  position_state ← cell self r c;
  Ok (negb (bool_decide (position_state = PositionState.EMPTY))).

Section Hash.
(** Python's [hash] on [str] objects: a function fixed for the lifetime
    of the interpreter. *)
Variable str_hash : string → Z.

Definition __hash__ (self : t) : Z :=
  str_hash (String.concat EmptyString
              (PositionState.str <$> mjoin (_board self))).
End Hash.

(** [object.__eq__], inherited because the class defines none. *)
Definition __eq__ (self other : t) : bool := Nat.eqb (id self) (id other).

End Board.

(** All things a player can do.  [OtherAction] stands for an [Action]
    that is neither a [Pass] nor a [Move]. *)
Inductive Action : Set :=
  | Pass
  | Move (r c : Z)
  | OtherAction.

(** The entries of [COLOR_REVERSE] under the [Color] keys, the only ones
    the engine looks up. *)
Definition COLOR_REVERSE (c : Color.t) : Color.t :=
  match c with
  | Color.WHITE => Color.BLACK
  | Color.BLACK => Color.WHITE
  end.

Module GameState.

Record t : Type := GameState {
  _board : Board.t;
  _turn : Color.t;
  _num_of_passes : Z;
  _past_boards : list Board.t      (* a set of objects, oldest first *)
}.

(** The game object together with the allocator of object identities. *)
Record world : Type := World {
  next_id : nat;
  this : t
}.

(** [GameState()] in a new interpreter. *)
Definition __init__ : world :=
  {| next_id := 1;
     this := {| _board := Board.__init__ 0;
                _turn := Color.BLACK;
                _num_of_passes := 0;
                _past_boards := [] |} |}.

Definition board (w : world) : Board.t := _board (this w).

Definition is_ended (w : world) : bool := _num_of_passes (this w) =? 2.

(** Reading and writing the attributes of [self]. *)
Definition get_board : M world Board.t := reads (λ w, Ok (_board (this w))).
Definition get_turn : M world Color.t := reads (λ w, Ok (_turn (this w))).
Definition get_past_boards : M world (list Board.t) :=
  reads (λ w, Ok (_past_boards (this w))).

Definition set_turn (color : Color.t) : M world unit :=
  assign (λ w, Ok {| next_id := next_id w;
                     this := {| _board := _board (this w);
                                _turn := color;
                                _num_of_passes := _num_of_passes (this w);
                                _past_boards := _past_boards (this w) |} |}).

Definition set_past_boards (s : list Board.t) : M world unit :=
  assign (λ w, Ok {| next_id := next_id w;
                     this := {| _board := _board (this w);
                                _turn := _turn (this w);
                                _num_of_passes := _num_of_passes (this w);
                                _past_boards := s |} |}).

(** [self._num_of_passes += 1]. *)
Definition add_pass : M world unit :=
  assign (λ w, Ok {| next_id := next_id w;
                     this := {| _board := _board (this w);
                                _turn := _turn (this w);
                                _num_of_passes := _num_of_passes (this w) + 1;
                                _past_boards := _past_boards (this w) |} |}).

(** [copy(b)]: allocates the new [Board]. *)
Definition copy (b : Board.t) : M world Board.t := λ w,
  (Ok (Board.__copy__ b (next_id w)),
   {| next_id := S (next_id w); this := this w |}).

(** A call that mutates the board the game owns. *)
Definition on_board {A} (m : M Board.t A) : M world A := λ w,
  let '(res, b) := m (_board (this w)) in
  (res, {| next_id := next_id w;
           this := {| _board := b;
                      _turn := _turn (this w);
                      _num_of_passes := _num_of_passes (this w);
                      _past_boards := _past_boards (this w) |} |}).

(** Calls that mutate a board held in a local variable: the board as the
    calls left it is handed back, the game is not touched. *)
Definition on_local {A} (b : Board.t) (m : M Board.t A)
  : M world (A * Board.t) := λ w,
  match m b with
  | (Ok a, b') => (Ok (a, b'), w)
  | (Raise e, _) => (Raise e, w)
  end.

Definition fill_new_piece (r c : Z) (turn : Color.t) : Board.t → result Board.t :=
  let ps := match turn with
            | Color.BLACK => PositionState.BLACK
            | _ => PositionState.WHITE
            end in
  Board.set_cell r c ps.

Definition _remove_components (color : Color.t) : M Board.t unit :=
  let! groups := reads (λ b, Board.get_groups b color) in
  for_each groups (λ group,
    if negb (Group.liberal group) then Board.remove_group group
    else ret tt).

Definition remove_components (color : Color.t) : M world unit :=
  on_board (_remove_components color).

Section Hash.
Variable str_hash : string → Z.

(** [x in s] for a set of boards: an entry with the same hash that is
    the same object or compares equal. *)
Definition set_contains (s : list Board.t) (x : Board.t) : bool :=
  existsb (λ y,
    (Board.__hash__ str_hash y =? Board.__hash__ str_hash x)
    && (Nat.eqb (Board.id y) (Board.id x) || Board.__eq__ y x)) s.

(** [s.add(x)]. *)
Definition set_add (s : list Board.t) (x : Board.t) : list Board.t :=
  if set_contains s x then s else s ++ [x].

(** Returns [True] or falls off the end; [false] stands for the [None]
    that both callers read as false. *)
Definition detect_ko (r c : Z) : M world bool :=
  let! board := get_board in
  let! hypothetical_board := copy board in
  let! turn := get_turn in
  let! res := on_local hypothetical_board
    (let! _ := assign (fill_new_piece r c turn) in
     let other_color := COLOR_REVERSE turn in
     let! _ := _remove_components other_color in
     _remove_components turn) in
  let hypothetical_board := snd res in
  let! past_boards := get_past_boards in
  if set_contains past_boards hypothetical_board then ret true
  else ret false.

Definition update (action : Action) : M world unit :=
  let! turn := get_turn in
  let other_color := COLOR_REVERSE turn in
  let! _ :=
    match action with
    | Pass => add_pass
    | Move r c =>
        let! occupied := reads (λ w, Board.is_position_occupied (board w) r c) in
        if occupied then raise IllegalMoveError else
        let! ko := detect_ko r c in
        if ko then raise IllegalMoveError else
        let! turn := get_turn in
        let! _ := on_board (assign (fill_new_piece r c turn)) in
        let! _ := remove_components other_color in
        let! turn := get_turn in
        remove_components turn
    | OtherAction => raise NotImplementedError
    end in
  let! board := get_board in
  let! snapshot := copy board in
  let! past_boards := get_past_boards in
  let! _ := set_past_boards (set_add past_boards snapshot) in
  set_turn other_color.

End Hash.

End GameState.

(* ===================================================================== *)
(** ** main.py                                                         *)
(* ===================================================================== *)

Module RandBot.
Section Decide.
Variable str_hash : string → Z.
(** What [random.shuffle] turns the list into on this call. *)
Variable shuffle : list (Z * Z) → list (Z * Z).

(** The [for] loop of [decide]: the first coordinates [detect_ko] has
    nothing against, or [Pass()] when the list runs out. *)
Fixpoint decide_loop (possible_coords : list (Z * Z))
  : M GameState.world Action :=
  match possible_coords with
  | [] => ret Pass
  | coords :: possible_coords' =>
      let move := Move coords.1 coords.2 in
      let! ko := GameState.detect_ko str_hash coords.1 coords.2 in
      if ko then decide_loop possible_coords' else ret move
  end.

Definition decide : M GameState.world Action :=
  let! board := GameState.get_board in
  let possible_coords := shuffle (Board.empty_positions board) in
  decide_loop possible_coords.

End Decide.
End RandBot.

Module Game.
Section Start.
Variable str_hash : string → Z.
(** The shuffles of the bot, call after call. *)
Variable shuffles : nat → list (Z * Z) → list (Z * Z).

(** The [while] loop of [start] as far as the game goes: its display
    calls ([imshow], [waitKey], [print]) read the board and write to the
    screen, and are left out.  [rounds] bounds the number of turns of
    the loop looked at and [k] counts the calls of the bot; the answer
    is [true] when the loop was left and [false] when it is still
    running after [rounds] turns. *)
Fixpoint start (rounds k : nat) : M GameState.world bool :=
  match rounds with
  | O => ret false
  | S rounds' =>
      let! ended := reads (λ w, Ok (GameState.is_ended w)) in
      if ended then ret true
      else
        let! action := RandBot.decide str_hash (shuffles k) in
        let! _ := GameState.update str_hash action in
        start rounds' (S k)
  end.

End Start.
End Game.

(* ===================================================================== *)
(** ** Vocabulary of the statements                                    *)
(* ===================================================================== *)

(** The class invariant of [Board]: 19 rows of 19 cells. *)
Definition wf (b : Board.t) : Prop :=
  length (Board._board b) = 19%nat
  ∧ Forall (λ rw, length rw = 19%nat) (Board._board b).

(** The content of an intersection, by natural-number coordinates. *)
Definition grid_at (b : Board.t) (i j : nat) : option PositionState.t :=
  rw ← Board._board b !! i; rw !! j.

Definition on_grid (r c : Z) : Prop := (0 ≤ r ≤ 18) ∧ (0 ≤ c ≤ 18).

(** The cell state a stone of a colour is stored as (what
    [fill_new_piece] writes and [pieces] reads back). *)
Definition stone_state (color : Color.t) : PositionState.t :=
  match color with
  | Color.WHITE => PositionState.WHITE
  | Color.BLACK => PositionState.BLACK
  end.

(** [p] is a stone of the board. *)
Definition stone_on (b : Board.t) (p : Piece.t) : Prop :=
  0 ≤ Piece.row p ∧ 0 ≤ Piece.col p
  ∧ grid_at b (Z.to_nat (Piece.row p)) (Z.to_nat (Piece.col p))
    = Some (stone_state (Piece.color p)).

(** The set [all_pieces] of [get_groups]. *)
Definition stones (b : Board.t) (color : Color.t) : gset Piece.t :=
  list_to_set (filter (λ p, Piece.color p = color) (Board.pieces b)).

(** The empty intersections next to a piece. *)
Definition empty_neighbours (b : Board.t) (p : Piece.t) : gset (Z * Z) :=
  list_to_set
    (filter (λ rc, Board.cell b rc.1 rc.2 = Ok PositionState.EMPTY)
            (Piece.adjacent_coordinates p)).

(** The group [get_groups] builds around a stone. *)
Definition group_of (b : Board.t) (p : Piece.t) : Group.t :=
  Group.Group {[p]} (empty_neighbours b p).

(** The intersection holds a stone of the colour with no empty
    intersection next to it. *)
Definition captured (b : Board.t) (color : Color.t) (i j : nat) : Prop :=
  grid_at b i j = Some (stone_state color)
  ∧ empty_neighbours b (Piece.Piece (Z.of_nat i) (Z.of_nat j) color) = ∅.

#[global] Instance captured_dec b color i j : Decision (captured b color i j).
Proof. unfold captured. apply _. Defined.

(** Driving the engine: the actions are applied one after the other; a
    caller that catches the exception of a refused action goes on with
    the game as the refused call left it. *)
Fixpoint play (str_hash : string → Z) (actions : list Action)
    (w : GameState.world) : GameState.world :=
  match actions with
  | [] => w
  | a :: actions' => play str_hash actions' (snd (GameState.update str_hash a w))
  end.

Definition is_pass (a : Action) : bool :=
  match a with
  | Pass => true
  | _ => false
  end.

Definition count_passes (actions : list Action) : Z :=
  Z.of_nat (length (filter (λ a, is_pass a = true) actions)).

Definition num_of_passes (w : GameState.world) : Z :=
  GameState._num_of_passes (GameState.this w).

Definition turn (w : GameState.world) : Color.t :=
  GameState._turn (GameState.this w).

Definition past_boards (w : GameState.world) : list Board.t :=
  GameState._past_boards (GameState.this w).

(** The same world with another value in the pass counter. *)
Definition with_passes (n : Z) (w : GameState.world) : GameState.world :=
  {| GameState.next_id := GameState.next_id w;
     GameState.this :=
       {| GameState._board := GameState._board (GameState.this w);
          GameState._turn := GameState._turn (GameState.this w);
          GameState._num_of_passes := n;
          GameState._past_boards := GameState._past_boards (GameState.this w) |} |}.

(** Every snapshot in the history was allocated before now. *)
Definition ids_fresh (w : GameState.world) : Prop :=
  Forall (λ s, (Board.id s < GameState.next_id w)%nat) (past_boards w).

Definition invariant (w : GameState.world) : Prop :=
  wf (GameState.board w) ∧ ids_fresh w.

(** The worlds a game can be in: those some sequence of calls of
    [update] leads to from a new game. *)
Definition reachable (str_hash : string → Z) (w : GameState.world) : Prop :=
  ∃ actions, w = play str_hash actions GameState.__init__.

(** The invariant, and an empty intersection left on the board. *)
Definition playable (w : GameState.world) : Prop :=
  invariant w ∧ Board.empty_positions (GameState.board w) ≠ [].

(** The call moves the pass counter by [d], whatever its outcome. *)
Definition adds_passes {A} (d : Z) (m : M GameState.world A) : Prop :=
  ∀ w, num_of_passes (snd (m w)) = num_of_passes w + d.

(** The call never looks at the pass counter: run with another value in
    it, the outcome and everything else in the world are the same. *)
Definition blind_to_passes {A} (m : M GameState.world A) : Prop :=
  ∀ n w,
    fst (m (with_passes n w)) = fst (m w)
    ∧ with_passes 0 (snd (m (with_passes n w))) = with_passes 0 (snd (m w)).

(** A stand-in for the interpreter's string hash in the worked examples:
    any function will do, a game comes out the same under every one
    ([play_hash_irrelevant]). *)
Definition example_hash (s : string) : Z := Z.of_nat (String.length s).

(** The adjacency of the rules of Go, as the specification words it:
    exactly one of row and column differs by exactly 1 and the other is
    equal. *)
Definition spec_adjacent (p q : Piece.t) : bool :=
  ((Z.abs (Piece.row p - Piece.row q) =? 1) && (Piece.col p =? Piece.col q))
  || ((Z.abs (Piece.col p - Piece.col q) =? 1) && (Piece.row p =? Piece.row q)).

(** Cell-wise equality of two grids. *)
Definition cellwise_equal (g1 g2 : Board.t) : Prop :=
  ∀ r c, on_grid r c → Board.cell g1 r c = Board.cell g2 r c.

(** The number of liberties the rules give a lone stone. *)
Definition lone_stone_liberties (r c : Z) : nat :=
  if (1 <=? r) && (r <=? 17) && (1 <=? c) && (c <=? 17) then 4
  else if ((r =? 0) || (r =? 18)) && ((c =? 0) || (c =? 18)) then 2
  else 3.

(** The board a move is played out on: the current board with the
    mover's stone written at the intersection. *)
Definition placed (w : GameState.world) (r c : Z) : Board.t :=
  match GameState.fill_new_piece r c (turn w) (GameState.board w) with
  | Ok b => b
  | Raise _ => GameState.board w
  end.

(** Placing the stone and resolving captures, opponent first: the three
    calls [detect_ko] makes on its copy and [update] on the board. *)
Definition resolve_move (r c : Z) (turn : Color.t) : M Board.t unit :=
  let! _ := assign (GameState.fill_new_piece r c turn) in
  let! _ := GameState._remove_components (COLOR_REVERSE turn) in
  GameState._remove_components turn.

(** Worked games.  Black plays first; each list is what was played
    before the move under study. *)

(** Black holds (0,1) and (1,0); White is to play and looks at the
    corner (0,0). *)
Definition corner_game : list Action := [Move 0 1; Pass; Move 1 0].

(** White holds (0,1), hemmed in by Black at (0,2), (1,1) and (1,0);
    White is to play and looks at (0,0), the last liberty of (0,1). *)
Definition suicide_game : list Action :=
  [Move 0 2; Move 0 1; Move 1 1; Pass; Move 1 0].

(** A ko: Black has just taken the white stone at (1,1) by playing
    (1,2); White is to play and can take back at (1,1). *)
Definition ko_game : list Action :=
  [Move 0 1; Move 0 2; Move 1 0; Move 1 3; Move 2 1; Move 2 2;
   Pass; Move 1 1; Move 1 2].

(** White has a chain (0,0)-(0,1) and a lone stone at (2,0) in atari;
    Black is to play (1,0). *)
Definition chain_game : list Action :=
  [Move 3 0; Move 0 1; Move 2 1; Move 0 0; Pass; Move 2 0].

(** Three stones far from each other: (3,3), (0,0) and (0,9). *)
Definition scattered_game : list Action := [Move 3 3; Move 0 0; Move 0 9].

(* ===================================================================== *)
(** ** Indexing and cells                                              *)
(* ===================================================================== *)

Lemma py_index_nonneg (len : nat) (i : Z) :
  0 ≤ i < Z.of_nat len → py_index len i = Ok (Z.to_nat i).
Proof. intros H. unfold py_index. rewrite decide_True by done. done. Qed.

Lemma py_index_lt len r i : py_index len r = Ok i → (i < len)%nat.
Proof.
  unfold py_index. repeat case_decide; intros [=]; lia.
Qed.

Lemma py_index_on_grid r c :
  on_grid r c →
  py_index 19 r = Ok (Z.to_nat r) ∧ py_index 19 c = Ok (Z.to_nat c).
Proof. intros [Hr Hc]. split; apply py_index_nonneg; lia. Qed.

Lemma getitem_lookup {A} (l : list A) (i : Z) (x : A) :
  0 ≤ i → l !! Z.to_nat i = Some x → getitem l i = Ok x.
Proof.
  intros Hi Hl. unfold getitem.
  rewrite py_index_nonneg; [simpl; by rewrite Hl|].
  apply lookup_lt_Some in Hl. lia.
Qed.

Lemma getitem_nonneg_inv {A} (l : list A) (i : Z) (x : A) :
  0 ≤ i → getitem l i = Ok x → l !! Z.to_nat i = Some x.
Proof.
  intros Hi. unfold getitem, py_index.
  destruct (decide (0 ≤ i < Z.of_nat (length l))) as [|Hn]; simpl.
  - destruct (l !! Z.to_nat i); congruence.
  - destruct (decide _) as [Hneg|]; simpl; [lia|done].
Qed.

Lemma setitem_nonneg {A} (l : list A) (i : Z) (x : A) :
  0 ≤ i < Z.of_nat (length l) → setitem l i x = Ok (<[Z.to_nat i := x]> l).
Proof. intros H. unfold setitem. by rewrite py_index_nonneg. Qed.

Lemma wf_lookup_row b i :
  wf b → (i < 19)%nat → ∃ rw, Board._board b !! i = Some rw ∧ length rw = 19%nat.
Proof.
  intros [Hlen Hall] Hi.
  destruct (lookup_lt_is_Some_2 (Board._board b) i) as [rw Hrw]; [lia|].
  exists rw. split; [done|]. by eapply (Forall_lookup_1 _ _ _ _ Hall).
Qed.

Lemma wf_grid_at b i j :
  wf b → (i < 19)%nat → (j < 19)%nat → is_Some (grid_at b i j).
Proof.
  intros Hwf Hi Hj. destruct (wf_lookup_row b i Hwf Hi) as (rw & Hrw & Hlen).
  unfold grid_at. rewrite Hrw. simpl. apply lookup_lt_is_Some_2. lia.
Qed.

Lemma grid_at_lt b i j ps :
  wf b → grid_at b i j = Some ps → (i < 19)%nat ∧ (j < 19)%nat.
Proof.
  intros [Hlen Hall]. unfold grid_at.
  destruct (Board._board b !! i) as [rw|] eqn:Hrw; simpl; [|done].
  intros Hj. apply lookup_lt_Some in Hj.
  pose proof (lookup_lt_Some _ _ _ Hrw).
  pose proof (Forall_lookup_1 _ _ _ _ Hall Hrw) as Hl. simpl in Hl. lia.
Qed.

Lemma cell_grid_at b r c ps :
  0 ≤ r → 0 ≤ c →
  Board.cell b r c = Ok ps ↔ grid_at b (Z.to_nat r) (Z.to_nat c) = Some ps.
Proof.
  intros Hr Hc. unfold Board.cell, grid_at. split.
  - destruct (getitem (Board._board b) r) as [rw|] eqn:Hrw; simpl; [|done].
    intros Hg. apply getitem_nonneg_inv in Hrw; [|done].
    apply getitem_nonneg_inv in Hg; [|done]. by rewrite Hrw.
  - destruct (Board._board b !! Z.to_nat r) as [rw|] eqn:Hrw; simpl; [|done].
    intros Hg. rewrite (getitem_lookup _ _ _ Hr Hrw). simpl.
    by apply getitem_lookup.
Qed.

Lemma wf_cell b r c :
  wf b → on_grid r c → ∃ ps, Board.cell b r c = Ok ps.
Proof.
  intros Hwf [Hr Hc].
  destruct (wf_grid_at b (Z.to_nat r) (Z.to_nat c) Hwf) as [ps Hps]; [lia..|].
  exists ps. apply cell_grid_at; [lia..|done].
Qed.

(** Reading a cell through any pair of indices Python accepts. *)
Lemma cell_valid b r c ps :
  wf b → Board.cell b r c = Ok ps →
  ∃ i j, py_index 19 r = Ok i ∧ py_index 19 c = Ok j ∧ grid_at b i j = Some ps.
Proof.
  intros Hwf. unfold Board.cell, getitem, grid_at.
  destruct Hwf as [Hlen Hall]. rewrite Hlen.
  destruct (py_index 19 r) as [i|] eqn:Hi; simpl; [|done].
  destruct (Board._board b !! i) as [rw|] eqn:Hrw; simpl; [|done].
  pose proof (Forall_lookup_1 _ _ _ _ Hall Hrw) as Hl. simpl in Hl. rewrite Hl.
  destruct (py_index 19 c) as [j|] eqn:Hj; simpl; [|done].
  destruct (rw !! j) as [ps'|] eqn:Hps; [|done].
  intros [= ->]. exists i, j. by rewrite Hrw.
Qed.

(** Writing a cell through any pair of indices Python accepts. *)
Lemma set_cell_valid b r c v i j :
  wf b → py_index 19 r = Ok i → py_index 19 c = Ok j →
  ∃ b', Board.set_cell r c v b = Ok b' ∧ wf b' ∧ Board.id b' = Board.id b
    ∧ ∀ i' j', grid_at b' i' j' =
        if decide (i' = i ∧ j' = j) then Some v else grid_at b i' j'.
Proof.
  intros Hwf Hi Hj.
  pose proof (py_index_lt _ _ _ Hi) as Hilt.
  pose proof (py_index_lt _ _ _ Hj) as Hjlt.
  destruct (wf_lookup_row b i Hwf Hilt) as (rw & Hrw & Hlen).
  destruct Hwf as [Hrows Hall].
  unfold Board.set_cell, getitem, setitem. rewrite Hrows, Hi. simpl.
  rewrite Hrw. simpl. rewrite Hlen, Hj. simpl.
  eexists. split; [done|]. split; [|split; [done|]].
  - split; simpl; [by rewrite length_insert|].
    apply Forall_insert; [done|]. by rewrite length_insert.
  - intros i' j'. unfold grid_at. simpl.
    destruct (decide (i' = i)) as [->|Hne].
    + rewrite list_lookup_insert_eq by lia. simpl.
      destruct (decide (j' = j)) as [->|Hne'].
      * rewrite decide_True by done. apply list_lookup_insert_eq. lia.
      * rewrite decide_False by tauto.
        rewrite list_lookup_insert_ne by done. by rewrite Hrw.
    + rewrite decide_False by tauto.
      by rewrite list_lookup_insert_ne.
Qed.

(** A write inside the grid succeeds, keeps the shape and the identity,
    and changes exactly the cell written. *)
Lemma set_cell_spec b r c v :
  wf b → on_grid r c →
  ∃ b', Board.set_cell r c v b = Ok b' ∧ wf b' ∧ Board.id b' = Board.id b
    ∧ ∀ i j, grid_at b' i j =
        if decide (i = Z.to_nat r ∧ j = Z.to_nat c) then Some v
        else grid_at b i j.
Proof.
  intros Hwf [Hr Hc]%py_index_on_grid. by apply set_cell_valid.
Qed.

Lemma set_cell_Ok b r c v b' :
  wf b → Board.set_cell r c v b = Ok b' → wf b' ∧ Board.id b' = Board.id b.
Proof.
  intros Hwf Hset.
  assert (∃ i j, py_index 19 r = Ok i ∧ py_index 19 c = Ok j)
    as (i & j & Hi & Hj).
  { revert Hset. unfold Board.set_cell, getitem, setitem.
    destruct Hwf as [Hlen Hall]. rewrite Hlen.
    destruct (py_index 19 r) as [i|] eqn:Hi; simpl; [|done].
    destruct (Board._board b !! i) as [rw|] eqn:Hrw; simpl; [|done].
    pose proof (Forall_lookup_1 _ _ _ _ Hall Hrw) as Hl. simpl in Hl.
    rewrite Hl. destruct (py_index 19 c) as [j|] eqn:Hj; simpl; [|done].
    intros _. by exists i, j. }
  destruct (set_cell_valid b r c v i j Hwf Hi Hj)
    as (b'' & Hset' & Hwf' & Hid' & _).
  rewrite Hset in Hset'. injection Hset' as <-. by split.
Qed.

Lemma fill_new_piece_set_cell r c color :
  GameState.fill_new_piece r c color = Board.set_cell r c (stone_state color).
Proof. by destruct color. Qed.

Lemma is_position_occupied_false b r c :
  0 ≤ r → 0 ≤ c →
  Board.is_position_occupied b r c = Ok false →
  grid_at b (Z.to_nat r) (Z.to_nat c) = Some PositionState.EMPTY.
Proof.
  intros Hr Hc. unfold Board.is_position_occupied.
  destruct (Board.cell b r c) as [ps|] eqn:Hcell; simpl; [|done].
  apply cell_grid_at in Hcell; [|done..]. by destruct ps.
Qed.

Lemma is_position_occupied_valid b r c occupied :
  wf b → Board.is_position_occupied b r c = Ok occupied →
  ∃ i j ps, py_index 19 r = Ok i ∧ py_index 19 c = Ok j
    ∧ grid_at b i j = Some ps
    ∧ occupied = negb (bool_decide (ps = PositionState.EMPTY)).
Proof.
  intros Hwf. unfold Board.is_position_occupied.
  destruct (Board.cell b r c) as [ps|] eqn:Hcell; simpl; [|done].
  intros [= <-]. destruct (cell_valid b r c ps Hwf Hcell) as (i & j & ? & ? & ?).
  by exists i, j, ps.
Qed.

Lemma wf_init n : wf (Board.__init__ n).
Proof.
  split; [reflexivity|]. unfold Board.__init__. cbn [Board._board].
  apply Forall_replicate. apply length_replicate.
Qed.

Lemma copy_cells b n : Board._board (Board.__copy__ b n) = Board._board b.
Proof. unfold Board.__copy__. simpl. apply list_fmap_id. Qed.

Lemma wf_copy b n : wf b → wf (Board.__copy__ b n).
Proof. unfold wf. by rewrite copy_cells. Qed.

(* ===================================================================== *)
(** ** The hash of a board                                             *)
(* ===================================================================== *)

Lemma wf_cellwise_equal g1 g2 :
  wf g1 → wf g2 → cellwise_equal g1 g2 → Board._board g1 = Board._board g2.
Proof.
  intros Hwf1 Hwf2 Heq. apply list_eq. intros i.
  destruct (decide (i < 19)%nat) as [Hi|Hi].
  - destruct (wf_lookup_row g1 i Hwf1 Hi) as (rw1 & Hrw1 & Hlen1).
    destruct (wf_lookup_row g2 i Hwf2 Hi) as (rw2 & Hrw2 & Hlen2).
    rewrite Hrw1, Hrw2. f_equal. apply list_eq. intros j.
    destruct (decide (j < 19)%nat) as [Hj|Hj].
    + destruct (wf_grid_at g1 i j Hwf1 Hi Hj) as [ps Hps].
      assert (Hc : Board.cell g1 (Z.of_nat i) (Z.of_nat j) = Ok ps)
        by (apply cell_grid_at; [lia..|by rewrite !Nat2Z.id]).
      rewrite Heq in Hc by (unfold on_grid; lia).
      apply cell_grid_at in Hc; [|lia..]. rewrite !Nat2Z.id in Hc.
      unfold grid_at in Hps, Hc. rewrite Hrw1 in Hps. rewrite Hrw2 in Hc.
      simpl in Hps, Hc. congruence.
    + rewrite !(lookup_ge_None_2) by lia. done.
  - destruct Hwf1 as [Hl1 _], Hwf2 as [Hl2 _].
    rewrite !(lookup_ge_None_2) by lia. done.
Qed.

(** C8.  Two grids that agree on every intersection have the same hash. *)
Theorem hash_consistent (str_hash : string → Z) g1 g2 :
  wf g1 → wf g2 → cellwise_equal g1 g2 →
  Board.__hash__ str_hash g1 = Board.__hash__ str_hash g2.
Proof.
  intros Hwf1 Hwf2 Heq. unfold Board.__hash__.
  by rewrite (wf_cellwise_equal g1 g2).
Qed.

Lemma hash_consistent_witness :
  wf (Board.__init__ 0) ∧ wf (Board.__copy__ (Board.__init__ 0) 1)
  ∧ cellwise_equal (Board.__init__ 0) (Board.__copy__ (Board.__init__ 0) 1)
  ∧ Board.__hash__ example_hash (Board.__init__ 0)
    = Board.__hash__ example_hash (Board.__copy__ (Board.__init__ 0) 1).
Proof.
  assert (H1 : wf (Board.__init__ 0)) by apply wf_init.
  assert (H2 : wf (Board.__copy__ (Board.__init__ 0) 1))
    by (split; [reflexivity|by vm_compute; repeat constructor]).
  assert (H3 : cellwise_equal (Board.__init__ 0)
                 (Board.__copy__ (Board.__init__ 0) 1)) by (by intros r c _).
  split; [done|]. split; [done|]. split; [done|].
  exact (hash_consistent example_hash _ _ H1 H2 H3).
Defined.

(* ===================================================================== *)
(** ** The stones of a board                                           *)
(* ===================================================================== *)

Lemma elem_of_pieces b p : p ∈ Board.pieces b ↔ stone_on b p.
Proof.
  unfold Board.pieces, stone_on, grid_at. rewrite list_elem_of_join. split.
  - intros (l & Hp & Hl).
    apply elem_of_lookup_imap in Hl as (i & rw & -> & Hrw).
    apply list_elem_of_join in Hp as (l & Hp & Hl).
    apply elem_of_lookup_imap in Hl as (j & ps & -> & Hps).
    destruct ps; [by apply not_elem_of_nil in Hp|..];
      apply list_elem_of_singleton in Hp as ->; simpl;
      rewrite !Nat2Z.id, Hrw; simpl; (split; [lia|split; [lia|done]]).
  - intros (Hr & Hc & Hg).
    destruct (Board._board b !! Z.to_nat (Piece.row p)) as [rw|] eqn:Hrw;
      simpl in Hg; [|done].
    eexists. split; last first.
    { apply elem_of_lookup_imap. eexists _, rw. split; [reflexivity|done]. }
    apply list_elem_of_join. eexists. split; last first.
    { apply elem_of_lookup_imap. eexists _, _. split; [reflexivity|done]. }
    rewrite !Z2Nat.id by done.
    destruct p as [r c []]; simpl; apply list_elem_of_singleton; done.
Qed.

Lemma NoDup_join_imap {A B} (key : B → nat) (f : nat → A → list B) l :
  (∀ i x y, y ∈ f i x → key y = i) → (∀ i x, NoDup (f i x)) →
  NoDup (mjoin (imap f l)).
Proof.
  revert key f. induction l as [|x l IH]; intros key f Hkey Hnd.
  - apply NoDup_nil_2.
  - rewrite imap_cons. cbn [mjoin list_join]. apply list.NoDup_app.
    split; [apply Hnd|]. split.
    + intros y Hy (ys & Hys & Hin)%list_elem_of_join.
      apply elem_of_lookup_imap in Hin as (i & x' & -> & _).
      apply Hkey in Hy. apply Hkey in Hys. lia.
    + apply (IH (λ y, pred (key y))); [|intros; apply Hnd].
      intros i x' y Hy. simpl in Hy. apply Hkey in Hy. lia.
Qed.

(** The generator yields every stone once: the [Piece] objects of one
    call differ in their coordinates, so comparing them by value is
    comparing them by identity. *)
Lemma pieces_NoDup b : NoDup (Board.pieces b).
Proof.
  unfold Board.pieces.
  apply (NoDup_join_imap (λ p, Z.to_nat (Piece.row p))).
  - intros i rw p (l & Hp & Hl)%list_elem_of_join.
    apply elem_of_lookup_imap in Hl as (j & ps & -> & _).
    destruct ps; [by apply not_elem_of_nil in Hp|..];
      apply list_elem_of_singleton in Hp as ->; simpl; lia.
  - intros i rw. apply (NoDup_join_imap (λ p, Z.to_nat (Piece.col p))).
    + intros j ps p Hp.
      destruct ps; [by apply not_elem_of_nil in Hp|..];
        apply list_elem_of_singleton in Hp as ->; simpl; lia.
    + intros j ps. destruct ps;
        [apply NoDup_nil_2|apply NoDup_singleton..].
Qed.

Lemma elem_of_stones b color p :
  p ∈ stones b color ↔ stone_on b p ∧ Piece.color p = color.
Proof.
  unfold stones. rewrite elem_of_list_to_set, list_elem_of_filter.
  rewrite elem_of_pieces. tauto.
Qed.

Lemma stone_on_grid b p : wf b → stone_on b p → on_grid (Piece.row p) (Piece.col p).
Proof.
  intros Hwf (Hr & Hc & Hg). apply grid_at_lt in Hg; [|done].
  unfold on_grid. lia.
Qed.

(* ===================================================================== *)
(** ** Groups                                                          *)
(* ===================================================================== *)

(** The adjacency condition of [find_adjacent_pieces] asks for the
    columns to be equal and to differ by one: it never holds. *)
Lemma adjacency_condition_false (p q : Piece.t) :
  ((Z.abs (Piece.row p - Piece.row q) =? 1) && (Piece.col p =? Piece.col q))
  && ((Z.abs (Piece.col p - Piece.col q) =? 1) && (Piece.row p =? Piece.row q))
  = false.
Proof.
  destruct (Z.eqb_spec (Piece.col p) (Piece.col q)) as [Heq|];
    [|by rewrite andb_false_r].
  destruct (Z.eqb_spec (Z.abs (Piece.col p - Piece.col q)) 1) as [Habs|];
    [lia|by rewrite andb_false_r].
Qed.

Lemma find_adjacent_pieces_nil p l : Board.find_adjacent_pieces p l = [].
Proof.
  unfold Board.find_adjacent_pieces.
  induction l as [|q l IH]; [done|].
  rewrite fmap_cons, adjacency_condition_false. exact IH.
Qed.

(** C3.  [find_adjacent_pieces] finds no piece at all, whatever it is
    given: of two stones next to each other on a row, adjacent by the
    rules, it reports nothing. *)
Theorem find_adjacent_pieces_finds_nothing :
  (∀ p pieces, Board.find_adjacent_pieces p pieces = [])
  ∧ spec_adjacent (Piece.Piece 0 0 Color.BLACK) (Piece.Piece 0 1 Color.BLACK)
    = true
  ∧ Board.find_adjacent_pieces (Piece.Piece 0 0 Color.BLACK)
      [Piece.Piece 0 1 Color.BLACK] = [].
Proof.
  split; [apply find_adjacent_pieces_nil|]. split; reflexivity.
Qed.

Lemma build_group_S depth piece considered group :
  Board.build_group (S depth) piece considered group = Ok group.
Proof. simpl. by rewrite find_adjacent_pieces_nil. Qed.

Lemma build_group_limit piece considered group :
  Board.build_group Board.recursion_limit piece considered group = Ok group.
Proof.
  unfold Board.recursion_limit. change 1000%nat with (S 999).
  apply build_group_S.
Qed.

Lemma adjacent_on_grid p rc :
  on_grid (Piece.row p) (Piece.col p) →
  rc ∈ Piece.adjacent_coordinates p → on_grid rc.1 rc.2.
Proof.
  intros [Hr Hc]. unfold Piece.adjacent_coordinates, on_grid.
  rewrite !elem_of_app.
  destruct (Z.geb_spec (Piece.row p) 1), (Z.leb_spec (Piece.row p) 17),
    (Z.geb_spec (Piece.col p) 1), (Z.leb_spec (Piece.col p) 17);
    rewrite ?list_elem_of_singleton, ?elem_of_nil;
    intros [?|[?|[?|?]]]; subst; simpl in *; try done; lia.
Qed.

Lemma liberties_fold (b : Board.t) (l : list (Z * Z)) (acc : gset (Z * Z)) :
  (∀ rc : Z * Z, rc ∈ l → ∃ ps, Board.cell b rc.1 rc.2 = Ok ps) →
  foldM (λ liberties '(row, col),
           position_state ← Board.cell b row col;
           match position_state with
           | PositionState.EMPTY => Ok (liberties ∪ {[(row, col)]})
           | _ => Ok liberties
           end) l acc
  = Ok (acc ∪ list_to_set
          (filter (λ rc, Board.cell b rc.1 rc.2 = Ok PositionState.EMPTY) l)).
Proof.
  revert acc. induction l as [|[r c] l IH]; intros acc Hl.
  - simpl. f_equal. set_solver.
  - destruct (Hl (r, c)) as [ps Hps]; [left|]. simpl in Hps.
    cbn [foldM]. rewrite Hps. simpl.
    assert (Hl' : ∀ rc, rc ∈ l → ∃ ps, Board.cell b rc.1 rc.2 = Ok ps)
      by (intros rc Hrc; apply Hl; by right).
    destruct ps; simpl; rewrite (IH _ Hl'); f_equal.
    + rewrite filter_cons_True by done. set_solver.
    + rewrite filter_cons_False by (simpl; congruence). done.
    + rewrite filter_cons_False by (simpl; congruence). done.
Qed.

Lemma count_liberties_singleton b p :
  wf b → on_grid (Piece.row p) (Piece.col p) →
  Board.count_liberties b {[p]} = Ok (empty_neighbours b p).
Proof.
  intros Hwf Hp. unfold Board.count_liberties, empty_neighbours.
  rewrite elements_singleton. cbn [foldM].
  rewrite liberties_fold.
  - simpl. f_equal. set_solver.
  - intros rc Hrc. apply wf_cell; [done|]. by eapply adjacent_on_grid.
Qed.

Lemma raw_groups_fold (all_pieces : gset Piece.t) (l : list Piece.t)
    (added : gset Piece.t) (raw : list (gset Piece.t)) :
  NoDup l → (∀ p, p ∈ l → p ∉ added) →
  foldM (λ '(added_pieces, raw_groups) piece,
      if decide (piece ∈ added_pieces) then Ok (added_pieces, raw_groups)
      else
        group ← Board.build_group Board.recursion_limit piece
                  (all_pieces ∖ {[piece]}) {[piece]};
        Ok (added_pieces ∪ group, raw_groups ++ [group]))
    l (added, raw)
  = Ok (added ∪ list_to_set l, raw ++ (singleton <$> l)).
Proof.
  revert added raw. induction l as [|p l IH]; intros added raw Hnd Hfresh.
  - simpl. rewrite app_nil_r. f_equal. f_equal. set_solver.
  - apply list.NoDup_cons in Hnd as [Hp Hnd]. cbn [foldM].
    rewrite decide_False by (apply Hfresh; left).
    rewrite build_group_limit. cbn [mbind result_bind]. rewrite IH; [| done |].
    + rewrite <- app_assoc, list_to_set_cons, (assoc_L (∪)). done.
    + intros q Hq [Hin| ->%elem_of_singleton]%elem_of_union; [|done].
      eapply Hfresh; [by right|done].
Qed.

Lemma groups_fold (b : Board.t) (l : list Piece.t) (acc : list Group.t) :
  wf b → (∀ p, p ∈ l → on_grid (Piece.row p) (Piece.col p)) →
  foldM (λ groups raw_group,
           liberties ← Board.count_liberties b raw_group;
           Ok (groups ++ [Group.Group raw_group liberties]))
        (singleton <$> l) acc
  = Ok (acc ++ (group_of b <$> l)).
Proof.
  intros Hwf. revert acc. induction l as [|p l IH]; intros acc Hl.
  - simpl. by rewrite app_nil_r.
  - rewrite fmap_cons. cbn [foldM].
    rewrite count_liberties_singleton; [|done|apply Hl; left]. simpl.
    rewrite IH by (intros q Hq; apply Hl; by right).
    by rewrite <- app_assoc.
Qed.

(** On a well-formed board [get_groups] returns, and what it returns is
    one single-stone group per stone of the colour. *)
Lemma get_groups_spec b color :
  wf b →
  Board.get_groups b color = Ok (group_of b <$> elements (stones b color)).
Proof.
  intros Hwf. unfold Board.get_groups. fold (stones b color).
  rewrite raw_groups_fold; [|apply NoDup_elements|set_solver].
  cbn [mbind result_bind app].
  apply groups_fold; [done|].
  intros p [Hp _]%elem_of_elements%elem_of_stones. by apply stone_on_grid with b.
Qed.

Lemma groups_without p b (l : list Piece.t) :
  p ∉ l → filter (λ g, p ∈ Group.pieces g) (group_of b <$> l) = [].
Proof.
  induction l as [|q l IH]; intros Hp; [done|].
  apply not_elem_of_cons in Hp as [Hne Hp]. rewrite fmap_cons.
  rewrite filter_cons_False; [by apply IH|].
  unfold group_of, Group.pieces. simpl. by rewrite elem_of_singleton.
Qed.

Lemma groups_with p b (l : list Piece.t) :
  NoDup l → p ∈ l →
  length (filter (λ g, p ∈ Group.pieces g) (group_of b <$> l)) = 1%nat.
Proof.
  induction l as [|q l IH]; intros Hnd Hp; [by apply not_elem_of_nil in Hp|].
  apply list.NoDup_cons in Hnd as [Hq Hnd]. rewrite fmap_cons.
  destruct (decide (p = q)) as [->|Hne].
  - rewrite filter_cons_True
      by (unfold group_of, Group.pieces; simpl; by apply elem_of_singleton).
    by rewrite groups_without.
  - rewrite filter_cons_False
      by (unfold group_of, Group.pieces; simpl; by rewrite elem_of_singleton).
    apply IH; [done|]. by apply elem_of_cons in Hp as [?|?].
Qed.

Lemma elem_of_groups b color g p :
  g ∈ group_of b <$> elements (stones b color) → p ∈ Group.pieces g →
  g = group_of b p ∧ stone_on b p ∧ Piece.color p = color.
Proof.
  intros (q & -> & Hq)%list_elem_of_fmap Hp.
  unfold group_of, Group.pieces in Hp. simpl in Hp.
  apply elem_of_singleton in Hp as ->.
  by apply elem_of_elements, elem_of_stones in Hq.
Qed.

(** C5.  On a board of the engine [get_groups] returns, and the groups
    it returns partition the stones of the colour: every such stone is
    in exactly one of the groups, and the groups together hold those
    stones and nothing else. *)
Theorem get_groups_partition b color :
  wf b →
  ∃ groups, Board.get_groups b color = Ok groups
    ∧ (∀ p, stone_on b p → Piece.color p = color →
         length (filter (λ g, p ∈ Group.pieces g) groups) = 1%nat)
    ∧ (∀ p, (∃ g, g ∈ groups ∧ p ∈ Group.pieces g)
            ↔ stone_on b p ∧ Piece.color p = color).
Proof.
  intros Hwf. eexists. split; [by apply get_groups_spec|]. split.
  - intros p Hp Hcol. apply groups_with; [apply NoDup_elements|].
    by apply elem_of_elements, elem_of_stones.
  - intros p. split.
    + intros (g & Hg & Hp). by eapply elem_of_groups.
    + intros Hp. exists (group_of b p). split.
      * apply list_elem_of_fmap_2. by apply elem_of_elements, elem_of_stones.
      * unfold group_of, Group.pieces. simpl. by apply elem_of_singleton.
Qed.

Lemma get_groups_partition_witness :
  let b := GameState.board (play example_hash scattered_game GameState.__init__) in
  ∃ groups, Board.get_groups b Color.BLACK = Ok groups
    ∧ (∀ p, stone_on b p → Piece.color p = Color.BLACK →
         length (filter (λ g, p ∈ Group.pieces g) groups) = 1%nat)
    ∧ (∀ p, (∃ g, g ∈ groups ∧ p ∈ Group.pieces g)
            ↔ stone_on b p ∧ Piece.color p = Color.BLACK).
Proof.
  apply (get_groups_partition
           (GameState.board (play example_hash scattered_game GameState.__init__))
           Color.BLACK).
  apply (bool_decide_unpack _). by vm_compute.
Defined.

(* ===================================================================== *)
(** ** Liberties of a lone stone                                       *)
(* ===================================================================== *)

Lemma filter_all {A} (P : A → Prop) `{!∀ x, Decision (P x)} (l : list A) :
  (∀ x, x ∈ l → P x) → filter P l = l.
Proof.
  induction l as [|x l IH]; intros Hl; [done|].
  rewrite filter_cons_True by (apply Hl; left).
  f_equal. apply IH. intros y Hy. apply Hl. by right.
Qed.

Lemma adjacent_coordinates_NoDup p : NoDup (Piece.adjacent_coordinates p).
Proof.
  unfold Piece.adjacent_coordinates.
  destruct (Piece.row p >=? 1), (Piece.row p <=? 17),
    (Piece.col p >=? 1), (Piece.col p <=? 17); simpl;
    repeat (apply NoDup_cons_2 || apply NoDup_nil_2);
    rewrite ?elem_of_cons, ?elem_of_nil;
    intros H; repeat (destruct H as [H|H]); try done;
    injection H; lia.
Qed.

Lemma adjacent_coordinates_length p :
  on_grid (Piece.row p) (Piece.col p) →
  length (Piece.adjacent_coordinates p)
  = lone_stone_liberties (Piece.row p) (Piece.col p).
Proof.
  intros [Hr Hc]. unfold Piece.adjacent_coordinates, lone_stone_liberties.
  rewrite !Z.geb_leb.
  destruct (Z.leb_spec 1 (Piece.row p)), (Z.leb_spec (Piece.row p) 17),
    (Z.leb_spec 1 (Piece.col p)), (Z.leb_spec (Piece.col p) 17);
    simpl; try reflexivity;
    destruct (Z.eqb_spec (Piece.row p) 0), (Z.eqb_spec (Piece.row p) 18),
      (Z.eqb_spec (Piece.col p) 0), (Z.eqb_spec (Piece.col p) 18);
    simpl; try reflexivity; lia.
Qed.

(** C7.  A stone with no stone next to it is in exactly one group of
    [get_groups], and that group has 4 liberties when the stone is off
    the edge, 2 in a corner and 3 elsewhere on the edge. *)
Theorem isolated_stone_liberties b p :
  wf b → stone_on b p →
  (∀ rc, rc ∈ Piece.adjacent_coordinates p →
         Board.cell b rc.1 rc.2 = Ok PositionState.EMPTY) →
  ∃ groups g, Board.get_groups b (Piece.color p) = Ok groups
    ∧ g ∈ groups ∧ p ∈ Group.pieces g
    ∧ (∀ g', g' ∈ groups → p ∈ Group.pieces g' → g' = g)
    ∧ size (Group.liberties g)
      = lone_stone_liberties (Piece.row p) (Piece.col p).
Proof.
  intros Hwf Hp Hadj. exists (group_of b <$> elements (stones b (Piece.color p))).
  exists (group_of b p). split; [by apply get_groups_spec|]. split.
  { apply list_elem_of_fmap_2. by apply elem_of_elements, elem_of_stones. }
  split. { unfold group_of, Group.pieces. simpl. by apply elem_of_singleton. }
  split. { intros g' Hg' Hp'. by eapply elem_of_groups. }
  unfold group_of, empty_neighbours. simpl.
  rewrite filter_all by done.
  rewrite size_list_to_set by apply adjacent_coordinates_NoDup.
  apply adjacent_coordinates_length. by apply stone_on_grid with b.
Qed.

Lemma isolated_stone_liberties_witness :
  let b := GameState.board (play example_hash scattered_game GameState.__init__) in
  ∃ groups g, Board.get_groups b Color.WHITE = Ok groups
    ∧ g ∈ groups ∧ Piece.Piece 0 0 Color.WHITE ∈ Group.pieces g
    ∧ (∀ g', g' ∈ groups → Piece.Piece 0 0 Color.WHITE ∈ Group.pieces g' → g' = g)
    ∧ size (Group.liberties g) = 2%nat.
Proof.
  apply (isolated_stone_liberties
           (GameState.board (play example_hash scattered_game GameState.__init__))
           (Piece.Piece 0 0 Color.WHITE)).
  - apply (bool_decide_unpack _). by vm_compute.
  - split; [done|]. split; [done|]. by vm_compute.
  - intros rc Hrc. apply (bool_decide_unpack _).
    apply elem_of_cons in Hrc as [->|Hrc]; [by vm_compute|].
    apply elem_of_cons in Hrc as [->|Hrc]; [by vm_compute|].
    by apply not_elem_of_nil in Hrc.
Defined.

(* ===================================================================== *)
(** ** Capture resolution                                              *)
(* ===================================================================== *)

Lemma liberal_false (pieces : gset Piece.t) (L : gset (Z * Z)) :
  Group.liberal (Group.Group pieces L) = false ↔ L = ∅.
Proof.
  unfold Group.liberal. simpl. rewrite bool_decide_eq_false.
  rewrite <- (leibniz_equiv_iff L ∅), <- size_empty_iff.
  split; [|by intros -> ?].
  intros H. destruct (decide (size L = 0%nat)); [done|]. by destruct H.
Qed.

Lemma remove_group_singleton (b : Board.t) (p : Piece.t) (L : gset (Z * Z)) :
  wf b → on_grid (Piece.row p) (Piece.col p) →
  ∃ b', Board.remove_group (Group.Group {[p]} L) b = (Ok tt, b')
    ∧ wf b' ∧ Board.id b' = Board.id b
    ∧ ∀ i j, grid_at b' i j =
        if decide (i = Z.to_nat (Piece.row p) ∧ j = Z.to_nat (Piece.col p))
        then Some PositionState.EMPTY else grid_at b i j.
Proof.
  intros Hwf Hp.
  destruct (set_cell_spec b _ _ PositionState.EMPTY Hwf Hp)
    as (b' & Hset & Hwf' & Hid & Hgrid).
  exists b'. unfold Board.remove_group, Group.pieces. simpl.
  rewrite elements_singleton. simpl. unfold bind, assign, ret.
  by rewrite Hset.
Qed.

(** The loop of [_remove_components] over single-stone groups whose
    liberties were computed beforehand: it empties the stones of the
    groups without liberties and nothing else. *)
Lemma remove_loop_spec (L : Piece.t → gset (Z * Z)) (l : list Piece.t)
    (b : Board.t) :
  wf b → (∀ p, p ∈ l → on_grid (Piece.row p) (Piece.col p)) →
  ∃ b', for_each ((λ p, Group.Group {[p]} (L p)) <$> l)
          (λ group, if negb (Group.liberal group)
                    then Board.remove_group group else ret tt) b
        = (Ok tt, b')
    ∧ wf b' ∧ Board.id b' = Board.id b
    ∧ ∀ i j,
        (grid_at b' i j = Some PositionState.EMPTY
         ∧ ∃ p, p ∈ l ∧ L p = ∅
                ∧ i = Z.to_nat (Piece.row p) ∧ j = Z.to_nat (Piece.col p))
        ∨ (grid_at b' i j = grid_at b i j
           ∧ ¬ ∃ p, p ∈ l ∧ L p = ∅
                ∧ i = Z.to_nat (Piece.row p) ∧ j = Z.to_nat (Piece.col p)).
Proof.
  revert b. induction l as [|p l IH]; intros b Hwf Hl.
  - exists b. simpl. split; [done|]. split; [done|]. split; [done|].
    intros i j. right. split; [done|]. intros (p & Hp & _).
    by apply not_elem_of_nil in Hp.
  - assert (Hp : on_grid (Piece.row p) (Piece.col p)) by (apply Hl; left).
    assert (Hl' : ∀ q, q ∈ l → on_grid (Piece.row q) (Piece.col q))
      by (intros q Hq; apply Hl; by right).
    rewrite fmap_cons. cbn [for_each]. unfold bind at 1.
    destruct (Group.liberal (Group.Group {[p]} (L p))) eqn:Hlib; cbn [negb].
    + unfold ret at 1.
      destruct (IH b Hwf Hl') as (b' & Hrun & Hwf' & Hid & Hgrid).
      exists b'. rewrite Hrun. split; [done|]. split; [done|]. split; [done|].
      intros i j. destruct (Hgrid i j) as [[HE (q & Hq & Hrest)]|[Hsame Hno]].
      * left. split; [done|]. exists q. split; [by right|done].
      * right. split; [done|]. intros (q & Hq & HLq & Hij).
        apply elem_of_cons in Hq as [->|Hq].
        -- assert (Group.liberal (Group.Group {[p]} (L p)) = false)
             by (by apply liberal_false).
           congruence.
        -- apply Hno. by exists q.
    + apply liberal_false in Hlib.
      destruct (remove_group_singleton b p (L p) Hwf Hp)
        as (b1 & Hrm & Hwf1 & Hid1 & Hgrid1).
      rewrite Hrm.
      destruct (IH b1 Hwf1 Hl') as (b' & Hrun & Hwf' & Hid & Hgrid).
      exists b'. rewrite Hrun.
      split; [done|]. split; [done|]. split; [congruence|].
      intros i j. destruct (Hgrid i j) as [[HE (q & Hq & Hrest)]|[Hsame Hno]].
      * left. split; [done|]. exists q. split; [by right|done].
      * rewrite Hgrid1 in Hsame.
        destruct (decide (i = Z.to_nat (Piece.row p)
                          ∧ j = Z.to_nat (Piece.col p))) as [Hij|Hij].
        -- left. split; [done|]. exists p. split; [left|done].
        -- right. split; [done|]. intros (q & Hq & HLq & Hq').
           apply elem_of_cons in Hq as [->|Hq]; [done|].
           apply Hno. by exists q.
Qed.

(** Capture resolution for a colour on a well-formed board returns
    normally and empties exactly the captured intersections. *)
Lemma remove_components_spec color b :
  wf b →
  ∃ b', GameState._remove_components color b = (Ok tt, b')
    ∧ wf b' ∧ Board.id b' = Board.id b
    ∧ ∀ i j, grid_at b' i j =
        if decide (captured b color i j) then Some PositionState.EMPTY
        else grid_at b i j.
Proof.
  intros Hwf. unfold GameState._remove_components, bind, reads.
  rewrite get_groups_spec by done. unfold group_of.
  destruct (remove_loop_spec (empty_neighbours b) (elements (stones b color)) b Hwf)
    as (b' & Hrun & Hwf' & Hid & Hgrid).
  { intros p [Hp _]%elem_of_elements%elem_of_stones. by apply stone_on_grid with b. }
  exists b'. split; [exact Hrun|]. split; [done|]. split; [done|].
  intros i j. destruct (Hgrid i j) as [[HE (p & Hp & HL & -> & ->)]|[Hsame Hno]].
  - apply elem_of_elements, elem_of_stones in Hp as [(Hr & Hc & Hg) Hcol].
    rewrite decide_True; [done|]. unfold captured.
    rewrite !Z2Nat.id by done. subst color. by destruct p.
  - rewrite decide_False; [done|]. intros [Hg HL]. apply Hno.
    exists (Piece.Piece (Z.of_nat i) (Z.of_nat j) color).
    rewrite elem_of_elements, elem_of_stones. unfold stone_on. simpl.
    rewrite !Nat2Z.id. repeat split; try done; lia.
Qed.

(* ===================================================================== *)
(** ** The game object and its pass counter                            *)
(* ===================================================================== *)

Lemma adds_ret {A} (a : A) : adds_passes 0 (ret a).
Proof. intros w. simpl. lia. Qed.

Lemma adds_raise {A} e : adds_passes 0 (raise e : M GameState.world A).
Proof. intros w. simpl. lia. Qed.

Lemma adds_reads {A} (f : GameState.world → result A) : adds_passes 0 (reads f).
Proof. intros w. simpl. lia. Qed.

Lemma adds_bind {A B} d1 d2 (m : M GameState.world A) (k : A → M GameState.world B) :
  adds_passes d1 m → (∀ a, adds_passes d2 (k a)) →
  (∀ w e, fst (m w) = Raise e → d2 = 0) →
  adds_passes (d1 + d2) (bind m k).
Proof.
  intros Hm Hk Hraise w. unfold bind.
  specialize (Hm w). specialize (Hraise w).
  destruct (m w) as [[a|e] w1]; simpl in *.
  - rewrite Hk, Hm. lia.
  - rewrite Hm, (Hraise e) by done. lia.
Qed.

Lemma keeps_bind {A B} (m : M GameState.world A) (k : A → M GameState.world B) :
  adds_passes 0 m → (∀ a, adds_passes 0 (k a)) → adds_passes 0 (bind m k).
Proof. intros Hm Hk. by apply (adds_bind 0 0). Qed.

Lemma adds_on_board {A} (m : M Board.t A) : adds_passes 0 (GameState.on_board m).
Proof.
  intros w. unfold GameState.on_board, num_of_passes.
  destruct (m _) as [res b]. simpl. lia.
Qed.

Lemma adds_on_local {A} b (m : M Board.t A) :
  adds_passes 0 (GameState.on_local b m).
Proof.
  intros w. unfold GameState.on_local.
  destruct (m b) as [[a|e] b']; simpl; lia.
Qed.

Lemma adds_copy b : adds_passes 0 (GameState.copy b).
Proof. intros w. unfold num_of_passes. simpl. lia. Qed.

Lemma adds_set_turn color : adds_passes 0 (GameState.set_turn color).
Proof. intros w. unfold num_of_passes. simpl. lia. Qed.

Lemma adds_set_past_boards s : adds_passes 0 (GameState.set_past_boards s).
Proof. intros w. unfold num_of_passes. simpl. lia. Qed.

Lemma adds_add_pass : adds_passes 1 GameState.add_pass.
Proof. intros w. unfold num_of_passes. simpl. lia. Qed.

Section PassCounter.
Variable str_hash : string → Z.

Lemma adds_detect_ko r c : adds_passes 0 (GameState.detect_ko str_hash r c).
Proof.
  unfold GameState.detect_ko.
  apply keeps_bind; [apply adds_reads|intros board].
  apply keeps_bind; [apply adds_copy|intros hb].
  apply keeps_bind; [apply adds_reads|intros turn].
  apply keeps_bind; [apply adds_on_local|intros res].
  apply keeps_bind; [apply adds_reads|intros past].
  destruct (GameState.set_contains _ _ _); apply adds_ret.
Qed.

Lemma adds_update_tail color :
  adds_passes 0
    (let! board := GameState.get_board in
     let! snapshot := GameState.copy board in
     let! past_boards := GameState.get_past_boards in
     let! _ := GameState.set_past_boards
                 (GameState.set_add str_hash past_boards snapshot) in
     GameState.set_turn color).
Proof.
  apply keeps_bind; [apply adds_reads|intros board].
  apply keeps_bind; [apply adds_copy|intros snapshot].
  apply keeps_bind; [apply adds_reads|intros past].
  apply keeps_bind; [apply adds_set_past_boards|intros _].
  apply adds_set_turn.
Qed.

(** [update] moves the pass counter by one on a [Pass] and leaves it
    alone on anything else, accepted or refused. *)
Lemma update_num_of_passes a :
  adds_passes (if is_pass a then 1 else 0) (GameState.update str_hash a).
Proof.
  unfold GameState.update.
  apply (adds_bind 0); [apply adds_reads| |done]. intros turn.
  destruct a as [|r c|]; cbn [is_pass].
  - apply (adds_bind 1 0); [apply adds_add_pass| |done].
    intros _. apply adds_update_tail.
  - apply keeps_bind; [|intros _; apply adds_update_tail].
    apply keeps_bind; [apply adds_reads|intros occupied].
    destruct occupied; [apply adds_raise|].
    apply keeps_bind; [apply adds_detect_ko|intros ko].
    destruct ko; [apply adds_raise|].
    apply keeps_bind; [apply adds_reads|intros turn'].
    apply keeps_bind; [apply adds_on_board|intros _].
    apply keeps_bind; [apply adds_on_board|intros _].
    apply keeps_bind; [apply adds_reads|intros turn''].
    apply adds_on_board.
  - apply keeps_bind; [apply adds_raise|intros _; apply adds_update_tail].
Qed.

Lemma play_num_of_passes actions w :
  num_of_passes (play str_hash actions w) = num_of_passes w + count_passes actions.
Proof.
  revert w. induction actions as [|a actions IH]; intros w.
  - unfold count_passes. simpl. lia.
  - cbn [play]. rewrite IH, update_num_of_passes. unfold count_passes.
    destruct a; cbn [is_pass].
    + rewrite filter_cons_True by done. cbn [length]. lia.
    + rewrite filter_cons_False by done. lia.
    + rewrite filter_cons_False by done. lia.
Qed.

End PassCounter.

(** C9.  Only [Pass] moves the pass counter: a [Move], accepted or
    refused, leaves it alone and nothing resets it.  So after any
    sequence of actions with exactly two [Pass]es among them, whatever
    moves were played in between, the game reports that it has ended. *)
Theorem two_passes_end_game (str_hash : string → Z) actions :
  count_passes actions = 2 →
  GameState.is_ended (play str_hash actions GameState.__init__) = true
  ∧ ∀ w r c,
      num_of_passes (snd (GameState.update str_hash (Move r c) w))
      = num_of_passes w.
Proof.
  intros Hcount. split.
  - unfold GameState.is_ended.
    pose proof (play_num_of_passes str_hash actions GameState.__init__) as Hp.
    unfold num_of_passes in Hp. rewrite Hp, Hcount. done.
  - intros w r c. rewrite (update_num_of_passes str_hash (Move r c)).
    simpl. lia.
Qed.

Lemma two_passes_end_game_witness :
  count_passes [Pass; Move 3 3; Move 3 4; Pass] = 2
  ∧ GameState.is_ended
      (play example_hash [Pass; Move 3 3; Move 3 4; Pass] GameState.__init__)
    = true.
Proof.
  split; [reflexivity|].
  apply (two_passes_end_game example_hash [Pass; Move 3 3; Move 3 4; Pass]).
  reflexivity.
Defined.

(* ===================================================================== *)
(** ** Nothing in [update] reads the pass counter                      *)
(* ===================================================================== *)

Lemma with_passes_eq w1 w2 :
  with_passes 0 w1 = with_passes 0 w2 → w1 = with_passes (num_of_passes w1) w2.
Proof.
  destruct w1 as [n1 [b1 t1 p1 s1]], w2 as [n2 [b2 t2 p2 s2]].
  unfold with_passes, num_of_passes. simpl. congruence.
Qed.

Lemma blind_ret {A} (a : A) : blind_to_passes (ret a).
Proof. by intros n w. Qed.

Lemma blind_raise {A} e : blind_to_passes (raise e : M GameState.world A).
Proof. by intros n w. Qed.

Lemma blind_reads {A} (f : GameState.world → result A) :
  (∀ n w, f (with_passes n w) = f w) → blind_to_passes (reads f).
Proof. intros Hf n w. unfold reads. simpl. by rewrite Hf. Qed.

Lemma blind_bind {A B} (m : M GameState.world A) (k : A → M GameState.world B) :
  blind_to_passes m → (∀ a, blind_to_passes (k a)) → blind_to_passes (bind m k).
Proof.
  intros Hm Hk n w. unfold bind. destruct (Hm n w) as [Hres Hw].
  destruct (m (with_passes n w)) as [res1 w1], (m w) as [res2 w2].
  simpl in Hres, Hw. subst res2. destruct res1 as [a|e]; [|done].
  rewrite (with_passes_eq _ _ Hw). apply Hk.
Qed.

Lemma blind_on_board {A} (m : M Board.t A) : blind_to_passes (GameState.on_board m).
Proof.
  intros n w. unfold GameState.on_board. simpl. by destruct (m _) as [res b].
Qed.

Lemma blind_on_local {A} b (m : M Board.t A) :
  blind_to_passes (GameState.on_local b m).
Proof.
  intros n w. unfold GameState.on_local. by destruct (m b) as [[a|e] b'].
Qed.

Lemma blind_copy b : blind_to_passes (GameState.copy b).
Proof. by intros n w. Qed.

Lemma blind_set_turn color : blind_to_passes (GameState.set_turn color).
Proof. by intros n w. Qed.

Lemma blind_set_past_boards s : blind_to_passes (GameState.set_past_boards s).
Proof. by intros n w. Qed.

Lemma blind_add_pass : blind_to_passes GameState.add_pass.
Proof. by intros n w. Qed.

Section Blind.
Variable str_hash : string → Z.

Lemma blind_detect_ko r c : blind_to_passes (GameState.detect_ko str_hash r c).
Proof.
  unfold GameState.detect_ko.
  apply blind_bind; [by apply blind_reads|intros board].
  apply blind_bind; [apply blind_copy|intros hb].
  apply blind_bind; [by apply blind_reads|intros turn].
  apply blind_bind; [apply blind_on_local|intros res].
  apply blind_bind; [by apply blind_reads|intros past].
  destruct (GameState.set_contains _ _ _); apply blind_ret.
Qed.

Lemma blind_update a : blind_to_passes (GameState.update str_hash a).
Proof.
  unfold GameState.update.
  apply blind_bind; [by apply blind_reads|intros turn].
  apply blind_bind.
  - destruct a as [|r c|].
    + apply blind_add_pass.
    + apply blind_bind; [by apply blind_reads|intros occupied].
      destruct occupied; [apply blind_raise|].
      apply blind_bind; [apply blind_detect_ko|intros ko].
      destruct ko; [apply blind_raise|].
      apply blind_bind; [by apply blind_reads|intros turn'].
      apply blind_bind; [apply blind_on_board|intros _].
      apply blind_bind; [apply blind_on_board|intros _].
      apply blind_bind; [by apply blind_reads|intros turn''].
      apply blind_on_board.
    + apply blind_raise.
  - intros _.
    apply blind_bind; [by apply blind_reads|intros board].
    apply blind_bind; [apply blind_copy|intros snapshot].
    apply blind_bind; [by apply blind_reads|intros past].
    apply blind_bind; [apply blind_set_past_boards|intros _].
    apply blind_set_turn.
Qed.

End Blind.

(** C10.  [update] has no check of [is_ended]: called on a game that has
    ended it does what it would do with any other value in the pass
    counter, and a [Pass] there is accepted and takes the counter to 3,
    after which [is_ended] is false again. *)
Theorem update_after_game_end (str_hash : string → Z) w :
  GameState.is_ended w = true →
  (∀ a n,
     fst (GameState.update str_hash a (with_passes n w))
     = fst (GameState.update str_hash a w)
     ∧ with_passes 0 (snd (GameState.update str_hash a (with_passes n w)))
       = with_passes 0 (snd (GameState.update str_hash a w)))
  ∧ ∃ w', GameState.update str_hash Pass w = (Ok tt, w')
          ∧ num_of_passes w' = 3
          ∧ GameState.is_ended w' = false.
Proof.
  intros Hend. split; [intros a n; apply blind_update|].
  unfold GameState.is_ended in Hend. apply Z.eqb_eq in Hend.
  eexists. split.
  { unfold GameState.update, GameState.get_turn, GameState.add_pass,
      GameState.get_board, GameState.copy, GameState.get_past_boards,
      GameState.set_past_boards, GameState.set_turn, bind, reads, assign.
    cbn [fst snd]. reflexivity. }
  unfold GameState.is_ended, num_of_passes. simpl. rewrite Hend. done.
Qed.

Lemma update_after_game_end_witness :
  GameState.is_ended (play example_hash [Pass; Pass] GameState.__init__) = true
  ∧ ∃ w', GameState.update example_hash Pass
            (play example_hash [Pass; Pass] GameState.__init__) = (Ok tt, w')
          ∧ num_of_passes w' = 3
          ∧ GameState.is_ended w' = false.
Proof.
  split; [reflexivity|].
  apply (update_after_game_end example_hash
           (play example_hash [Pass; Pass] GameState.__init__)).
  reflexivity.
Defined.

(* ===================================================================== *)
(** ** A move onto an occupied intersection                            *)
(* ===================================================================== *)

(** The first check of [update] on a [Move] raises before anything is
    read or written besides the cell. *)
Lemma update_move_occupied (str_hash : string → Z) w r c :
  Board.is_position_occupied (GameState.board w) r c = Ok true →
  GameState.update str_hash (Move r c) w = (Raise IllegalMoveError, w).
Proof.
  intros Hocc. unfold GameState.update, GameState.get_turn, bind, reads.
  by rewrite Hocc.
Qed.

(** C6.  A [Move] onto an occupied intersection is refused with
    [IllegalMoveError], the exception of the occupied-cell check, and the
    call leaves the whole world as it found it: grid, turn colour, pass
    counter and position history. *)
Theorem update_occupied_rejected (str_hash : string → Z) w r c :
  Board.is_position_occupied (GameState.board w) r c = Ok true →
  GameState.update str_hash (Move r c) w = (Raise IllegalMoveError, w).
Proof.
  intros Hocc.
  unfold GameState.update, GameState.get_turn, bind at 1, reads at 1.
  unfold bind at 1. unfold bind at 1, reads at 1.
  rewrite Hocc. reflexivity.
Qed.

Lemma update_occupied_rejected_witness :
  Board.is_position_occupied
    (GameState.board (play example_hash [Move 3 3] GameState.__init__)) 3 3
  = Ok true
  ∧ GameState.update example_hash (Move 3 3)
      (play example_hash [Move 3 3] GameState.__init__)
    = (Raise IllegalMoveError, play example_hash [Move 3 3] GameState.__init__).
Proof.
  split; [by vm_compute|].
  apply update_occupied_rejected. by vm_compute.
Defined.

(* ===================================================================== *)
(** ** A move onto a free intersection                                 *)
(* ===================================================================== *)

Section Move.
Variable str_hash : string → Z.

(** [detect_ko] works on a copy: it allocates one object and leaves the
    game as it was. *)
Lemma detect_ko_frame r c w :
  snd (GameState.detect_ko str_hash r c w)
  = {| GameState.next_id := S (GameState.next_id w);
       GameState.this := GameState.this w |}.
Proof.
  unfold GameState.detect_ko, GameState.get_board, GameState.get_turn,
    GameState.get_past_boards, GameState.copy, bind at 1 2 3, reads.
  cbn [fst snd]. unfold bind at 1, GameState.on_local.
  destruct (bind _ _ _) as [[[]|e] b']; cbn [fst snd]; [|done].
  unfold bind. cbn [fst snd GameState.this GameState._past_boards].
  by destruct (GameState.set_contains _ _ _).
Qed.

(** What [update] does with a [Move] that passes both checks: the stone
    is written, the opponent's and then the mover's groups without
    liberties are taken off, a copy of the board goes to the history and
    the turn changes. *)
Lemma update_move_spec w r c :
  wf (GameState.board w) →
  Board.is_position_occupied (GameState.board w) r c = Ok false →
  fst (GameState.detect_ko str_hash r c w) = Ok false →
  ∃ b0 b1 b2,
    GameState.fill_new_piece r c (turn w) (GameState.board w) = Ok b0
    ∧ GameState._remove_components (COLOR_REVERSE (turn w)) b0 = (Ok tt, b1)
    ∧ GameState._remove_components (turn w) b1 = (Ok tt, b2)
    ∧ wf b0 ∧ wf b1 ∧ wf b2
    ∧ GameState.update str_hash (Move r c) w
      = (Ok tt,
         {| GameState.next_id := S (S (GameState.next_id w));
            GameState.this :=
              {| GameState._board := b2;
                 GameState._turn := COLOR_REVERSE (turn w);
                 GameState._num_of_passes := num_of_passes w;
                 GameState._past_boards :=
                   GameState.set_add str_hash (past_boards w)
                     (Board.__copy__ b2 (S (GameState.next_id w))) |} |}).
Proof.
  intros Hwf Hocc Hko.
  destruct (is_position_occupied_valid _ _ _ _ Hwf Hocc)
    as (i & j & ps & Hi & Hj & _).
  destruct (set_cell_valid (GameState.board w) r c (stone_state (turn w))
              i j Hwf Hi Hj) as (b0 & Hfill & Hwf0 & _).
  rewrite <- fill_new_piece_set_cell in Hfill.
  destruct (remove_components_spec (COLOR_REVERSE (turn w)) b0 Hwf0)
    as (b1 & Hrm1 & Hwf1 & _).
  destruct (remove_components_spec (turn w) b1 Hwf1) as (b2 & Hrm2 & Hwf2 & _).
  exists b0, b1, b2. do 6 (split; [done|]).
  pose proof (detect_ko_frame r c w) as Hframe.
  destruct (GameState.detect_ko str_hash r c w) as [ko w1] eqn:Hdk.
  simpl in Hko, Hframe. subst ko w1.
  unfold GameState.update, GameState.get_turn, bind at 1, reads at 1.
  unfold bind at 1. unfold bind at 1, reads at 1. rewrite Hocc.
  unfold bind at 1. rewrite Hdk.
  unfold bind at 1, reads at 1.
  unfold bind at 1, GameState.on_board at 1, assign at 1.
  unfold turn, GameState.board in Hfill.
  cbn [GameState.this GameState._board GameState._turn].
  rewrite Hfill.
  unfold bind at 1, GameState.remove_components at 1, GameState.on_board at 1.
  cbn [GameState.this GameState._board GameState._turn].
  unfold turn in Hrm1. rewrite Hrm1.
  unfold bind at 1, reads at 1.
  unfold GameState.remove_components at 1, GameState.on_board at 1.
  cbn [GameState.this GameState._board GameState._turn].
  unfold turn in Hrm2. rewrite Hrm2.
  reflexivity.
Qed.

Lemma update_move_raised w r c e w1 :
  Board.is_position_occupied (GameState.board w) r c = Ok false →
  GameState.detect_ko str_hash r c w = (Raise e, w1) →
  GameState.update str_hash (Move r c) w = (Raise e, w1).
Proof.
  intros Hocc Hdk.
  unfold GameState.update, GameState.get_turn, bind at 1, reads at 1.
  unfold bind at 1. unfold bind at 1, reads at 1. rewrite Hocc.
  unfold bind at 1. by rewrite Hdk.
Qed.

Lemma set_contains_fresh (s : list Board.t) x n :
  Forall (λ y, (Board.id y < n)%nat) s → Board.id x = n →
  GameState.set_contains str_hash s x = false.
Proof.
  intros Hs Hx. unfold GameState.set_contains.
  induction Hs as [|y s Hy Hs IH]; [done|]. cbn [existsb].
  rewrite IH, orb_false_r. unfold Board.__eq__.
  replace (Nat.eqb (Board.id y) (Board.id x)) with false
    by (symmetry; apply Nat.eqb_neq; lia).
  apply andb_false_r.
Qed.

(** What [detect_ko] comes to in a world of the game.  The board it
    looks up is a new object, the class has no [__eq__], and so the
    lookup never finds it: the call raises what writing the stone
    raises, and otherwise answers false. *)
Lemma detect_ko_spec w r c :
  invariant w →
  GameState.detect_ko str_hash r c w
  = (match Board.set_cell r c (stone_state (turn w))
             (Board.__copy__ (GameState.board w) (GameState.next_id w)) with
     | Ok _ => Ok false
     | Raise e => Raise e
     end,
     {| GameState.next_id := S (GameState.next_id w);
        GameState.this := GameState.this w |}).
Proof.
  intros [Hwf Hids].
  unfold GameState.detect_ko, GameState.get_board, GameState.get_turn,
    GameState.get_past_boards, GameState.copy, bind at 1 2 3, reads.
  cbn [fst snd]. unfold bind at 1, GameState.on_local.
  unfold bind at 1, assign at 1.
  cbn [GameState.this GameState._turn].
  unfold turn, GameState.board.
  set (hb := Board.__copy__ _ _).
  assert (Hwfh : wf hb) by (by apply wf_copy).
  rewrite fill_new_piece_set_cell.
  destruct (Board.set_cell r c _ hb) as [hb0|e] eqn:Hfill; [|done].
  destruct (set_cell_Ok _ _ _ _ _ Hwfh Hfill) as [Hwf0 Hid0].
  destruct (remove_components_spec
              (COLOR_REVERSE (GameState._turn (GameState.this w))) hb0 Hwf0)
    as (hb1 & Hrm1 & Hwf1 & Hid1 & _).
  destruct (remove_components_spec
              (GameState._turn (GameState.this w)) hb1 Hwf1)
    as (hb2 & Hrm2 & Hwf2 & Hid2 & _).
  unfold bind at 1. rewrite Hrm1, Hrm2.
  unfold bind. cbn [fst snd GameState.this GameState._past_boards].
  rewrite (set_contains_fresh _ _ (GameState.next_id w)); [done|exact Hids|].
  rewrite Hid2, Hid1, Hid0. done.
Qed.

Lemma detect_ko_never w r c :
  invariant w → fst (GameState.detect_ko str_hash r c w) ≠ Ok true.
Proof.
  intros Hinv. rewrite detect_ko_spec by done. cbn [fst].
  by destruct (Board.set_cell _ _ _ _).
Qed.

Lemma set_add_fresh (s : list Board.t) x n :
  Forall (λ y, (Board.id y < n)%nat) s → Board.id x = n →
  GameState.set_add str_hash s x = s ++ [x].
Proof.
  intros Hs Hx. unfold GameState.set_add.
  by rewrite (set_contains_fresh s x n).
Qed.

Lemma ids_fresh_alloc w :
  ids_fresh w →
  ids_fresh {| GameState.next_id := S (GameState.next_id w);
               GameState.this := GameState.this w |}.
Proof.
  unfold ids_fresh, past_boards. simpl. intros Hids.
  eapply Forall_impl; [|exact Hids]; simpl; lia.
Qed.

Lemma ids_fresh_tail w b color passes :
  ids_fresh w →
  ids_fresh
    {| GameState.next_id := S (GameState.next_id w);
       GameState.this :=
         {| GameState._board := b;
            GameState._turn := color;
            GameState._num_of_passes := passes;
            GameState._past_boards :=
              GameState.set_add str_hash (past_boards w)
                (Board.__copy__ b (GameState.next_id w)) |} |}.
Proof.
  intros Hids. pose proof (ids_fresh_alloc w Hids) as Hids'.
  unfold ids_fresh, past_boards, GameState.set_add in *. simpl in *.
  destruct (GameState.set_contains _ _ _); [done|].
  apply Forall_app. split; [done|]. apply Forall_singleton. simpl. lia.
Qed.

(** Every call of [update], accepted or refused, keeps the board in
    shape and the history made of objects allocated earlier. *)
Lemma update_invariant a w :
  invariant w → invariant (snd (GameState.update str_hash a w)).
Proof.
  intros [Hwf Hids]. destruct a as [|r c|].
  - split; [exact Hwf|]. by apply ids_fresh_tail.
  - destruct (Board.is_position_occupied (GameState.board w) r c)
      as [[]|e] eqn:Hocc.
    + by rewrite update_move_occupied.
    + pose proof (detect_ko_never w r c (conj Hwf Hids)) as Hnever.
      pose proof (detect_ko_frame r c w) as Hframe.
      destruct (GameState.detect_ko str_hash r c w) as [[[]|e] w1] eqn:Hdk;
        simpl in Hnever, Hframe; [done| |].
      * destruct (update_move_spec w r c Hwf Hocc) as
          (b0 & b1 & b2 & _ & _ & _ & _ & _ & Hwf2 & ->); [by rewrite Hdk|].
        split; [exact Hwf2|].
        apply (ids_fresh_tail
                 {| GameState.next_id := S (GameState.next_id w);
                    GameState.this := GameState.this w |}).
        by apply ids_fresh_alloc.
      * rewrite (update_move_raised w r c e w1 Hocc Hdk). cbn [snd]. subst w1.
        split; [exact Hwf|]. by apply ids_fresh_alloc.
    + unfold GameState.update, GameState.get_turn, bind, reads.
      rewrite Hocc. by split.
  - by split.
Qed.

Lemma play_invariant actions w :
  invariant w → invariant (play str_hash actions w).
Proof.
  revert w. induction actions as [|a actions IH]; intros w Hw; [done|].
  cbn [play]. by apply IH, update_invariant.
Qed.

Lemma invariant_init : invariant GameState.__init__.
Proof. split; [apply wf_init|]. by apply Forall_nil. Qed.

(** Every world a game can be in has a board of 19 rows of 19 cells, and
    there the ko check never fires. *)
Lemma reachable_invariant w : reachable str_hash w → invariant w.
Proof. intros [actions ->]. apply play_invariant, invariant_init. Qed.

End Move.

(* ===================================================================== *)
(** ** The string hash does not matter                                 *)
(* ===================================================================== *)

Section TwoHashes.
Variables h1 h2 : string → Z.

Lemma update_hash_irrelevant a w :
  invariant w → GameState.update h1 a w = GameState.update h2 a w.
Proof.
  intros Hinv. pose proof Hinv as [Hwf Hids]. destruct a as [|r c|].
  - unfold GameState.update, GameState.get_turn, GameState.add_pass,
      GameState.get_board, GameState.copy, GameState.get_past_boards,
      GameState.set_past_boards, GameState.set_turn, bind, reads, assign.
    cbn [fst snd GameState.this GameState._past_boards GameState.next_id
         GameState._board].
    by rewrite !(set_add_fresh _ _ _ (GameState.next_id w)).
  - destruct (Board.is_position_occupied (GameState.board w) r c)
      as [[]|e] eqn:Hocc.
    + by rewrite !update_move_occupied.
    + pose proof (detect_ko_spec h1 w r c Hinv) as Hdk1.
      pose proof (detect_ko_spec h2 w r c Hinv) as Hdk2.
      destruct (Board.set_cell r c _ _) as [hb|e] eqn:Hset.
      * destruct (update_move_spec h1 w r c Hwf Hocc) as
          (b0 & b1 & b2 & Hf & Hr1 & Hr2 & _ & _ & _ & ->); [by rewrite Hdk1|].
        destruct (update_move_spec h2 w r c Hwf Hocc) as
          (b0' & b1' & b2' & Hf' & Hr1' & Hr2' & _ & _ & _ & ->);
          [by rewrite Hdk2|].
        rewrite Hf in Hf'. injection Hf' as <-.
        rewrite Hr1 in Hr1'. injection Hr1' as <-.
        rewrite Hr2 in Hr2'. injection Hr2' as <-.
        assert (Hids' : Forall (λ y, (Board.id y < S (GameState.next_id w))%nat)
                          (past_boards w))
          by (eapply Forall_impl; [|exact Hids]; simpl; lia).
        by rewrite !(set_add_fresh _ _ _ (S (GameState.next_id w))).
      * by rewrite (update_move_raised h1 w r c e _ Hocc Hdk1),
          (update_move_raised h2 w r c e _ Hocc Hdk2).
    + unfold GameState.update, GameState.get_turn, bind, reads.
      by rewrite Hocc.
  - done.
Qed.

(** A game comes out the same whatever the interpreter's string hash. *)
Lemma play_hash_irrelevant actions :
  play h1 actions GameState.__init__ = play h2 actions GameState.__init__.
Proof.
  assert (∀ w, invariant w → play h1 actions w = play h2 actions w) as H.
  { induction actions as [|a actions IH]; intros w Hw; [done|].
    cbn [play]. rewrite (update_hash_irrelevant a w Hw).
    apply IH. by apply update_invariant. }
  apply H, invariant_init.
Qed.

End TwoHashes.

(* ===================================================================== *)
(** ** Suicide                                                         *)
(* ===================================================================== *)

Lemma stone_state_not_empty color : stone_state color ≠ PositionState.EMPTY.
Proof. by destruct color. Qed.

Lemma stone_state_reverse color : stone_state (COLOR_REVERSE color) ≠ stone_state color.
Proof. by destruct color. Qed.

(** C2 (as the code has it).  The engine has no suicide check.  A move
    onto a free intersection that the ko check lets through, that
    captures nothing and leaves the placed stone without a liberty, is
    accepted: capture resolution for the mover's colour takes the placed
    stone off again, the opponent's stones stay, the turn passes to the
    opponent and the pass counter is not touched. *)
Theorem suicide_move_taken_back (str_hash : string → Z) w r c b0 :
  wf (GameState.board w) → on_grid r c →
  Board.is_position_occupied (GameState.board w) r c = Ok false →
  fst (GameState.detect_ko str_hash r c w) = Ok false →
  GameState.fill_new_piece r c (turn w) (GameState.board w) = Ok b0 →
  GameState._remove_components (COLOR_REVERSE (turn w)) b0 = (Ok tt, b0) →
  (∃ groups g, Board.get_groups b0 (turn w) = Ok groups
     ∧ g ∈ groups ∧ Piece.Piece r c (turn w) ∈ Group.pieces g
     ∧ Group.liberal g = false) →
  ∃ w', GameState.update str_hash (Move r c) w = (Ok tt, w')
    ∧ Board.cell (GameState.board w') r c = Ok PositionState.EMPTY
    ∧ (∀ i j,
         grid_at (GameState.board w) i j
           = Some (stone_state (COLOR_REVERSE (turn w))) →
         grid_at (GameState.board w') i j
           = Some (stone_state (COLOR_REVERSE (turn w))))
    ∧ turn w' = COLOR_REVERSE (turn w)
    ∧ num_of_passes w' = num_of_passes w.
Proof.
  intros Hwf Hrc Hocc Hko Hfill Hrm1 (groups & g & Hgroups & Hg & Hpg & Hlib).
  destruct (update_move_spec str_hash w r c Hwf Hocc Hko)
    as (b0' & b1 & b2 & Hfill' & Hrm1' & Hrm2 & Hwf0 & _ & _ & Hupd).
  rewrite Hfill in Hfill'. injection Hfill' as <-.
  rewrite Hrm1 in Hrm1'. injection Hrm1' as <-.
  destruct (remove_components_spec (turn w) b0 Hwf0)
    as (b2' & Hrm2' & Hwf2 & _ & Hgrid2).
  rewrite Hrm2 in Hrm2'. injection Hrm2' as <-.
  destruct (set_cell_spec (GameState.board w) r c (stone_state (turn w)) Hwf Hrc)
    as (b0' & Hfill' & _ & _ & Hgrid0).
  rewrite <- fill_new_piece_set_cell, Hfill in Hfill'. injection Hfill' as <-.
  destruct Hrc as [Hr Hc].
  pose proof (is_position_occupied_false _ _ _ (proj1 Hr) (proj1 Hc) Hocc)
    as Hfree.
  eexists. split; [exact Hupd|]. unfold GameState.board, turn, num_of_passes.
  cbn [GameState.this GameState._board GameState._turn
       GameState._num_of_passes].
  split; [|split; [|done]].
  - apply cell_grid_at; [lia..|]. rewrite Hgrid2, decide_True; [done|].
    split.
    + rewrite Hgrid0, decide_True; done.
    + rewrite !Z2Nat.id by lia.
      rewrite get_groups_spec in Hgroups by done. injection Hgroups as <-.
      destruct (elem_of_groups _ _ _ _ Hg Hpg) as (-> & _).
      by apply (liberal_false {[Piece.Piece r c (turn w)]}).
  - intros i j Hij. fold (turn w) in *.
    rewrite Hgrid2, decide_False.
    + rewrite Hgrid0, decide_False; [done|]. intros [-> ->].
      unfold GameState.board in Hfree. rewrite Hfree in Hij.
      injection Hij as Hij. symmetry in Hij.
      by apply stone_state_not_empty in Hij.
    + intros [Hcap _]. rewrite Hgrid0 in Hcap.
      case_decide as Hd.
      * destruct Hd as [-> ->]. unfold GameState.board in Hfree.
        rewrite Hfree in Hij. injection Hij as Hij. symmetry in Hij.
        by apply stone_state_not_empty in Hij.
      * unfold GameState.board in Hcap. rewrite Hij in Hcap.
        injection Hcap as Hcap. by apply stone_state_reverse in Hcap.
Qed.

(** C2 (as stated) fails.  In the suicide game White plays (0,0).  No
    black stone is captured; the placed stone has no liberty, neither
    alone nor counted together with the white stone at (0,1) it touches;
    the board the move leads to is in no snapshot of the history.  The
    call is accepted and the board changes: both white stones go. *)
Lemma suicide_move_accepted :
  let w := play example_hash suicide_game GameState.__init__ in
  ∃ hb,
    resolve_move 0 0 Color.WHITE (GameState.board w) = (Ok tt, hb)
    ∧ turn w = Color.WHITE
    ∧ GameState._remove_components Color.BLACK (placed w 0 0)
      = (Ok tt, placed w 0 0)
    ∧ Board.count_liberties (placed w 0 0) {[Piece.Piece 0 0 Color.WHITE]}
      = Ok ∅
    ∧ Board.count_liberties (placed w 0 0)
        {[Piece.Piece 0 0 Color.WHITE; Piece.Piece 0 1 Color.WHITE]} = Ok ∅
    ∧ existsb (λ s, bool_decide (Board._board s = Board._board hb))
        (past_boards w) = false
    ∧ fst (GameState.update example_hash (Move 0 0) w) = Ok tt
    ∧ Board.pieces (GameState.board w)
      = [Piece.Piece 0 1 Color.WHITE; Piece.Piece 0 2 Color.BLACK;
         Piece.Piece 1 0 Color.BLACK; Piece.Piece 1 1 Color.BLACK]
    ∧ Board.pieces
        (GameState.board (snd (GameState.update example_hash (Move 0 0) w)))
      = [Piece.Piece 0 2 Color.BLACK; Piece.Piece 1 0 Color.BLACK;
         Piece.Piece 1 1 Color.BLACK].
Proof.
  eexists. split; [by vm_compute|].
  do 7 (split; [by vm_compute|]). by vm_compute.
Qed.

Lemma suicide_move_taken_back_witness :
  let w := play example_hash corner_game GameState.__init__ in
  ∃ w', GameState.update example_hash (Move 0 0) w = (Ok tt, w')
    ∧ Board.cell (GameState.board w') 0 0 = Ok PositionState.EMPTY
    ∧ (∀ i j,
         grid_at (GameState.board w) i j
           = Some (stone_state (COLOR_REVERSE (turn w))) →
         grid_at (GameState.board w') i j
           = Some (stone_state (COLOR_REVERSE (turn w))))
    ∧ turn w' = COLOR_REVERSE (turn w)
    ∧ num_of_passes w' = num_of_passes w.
Proof.
  apply (suicide_move_taken_back example_hash
           (play example_hash corner_game GameState.__init__) 0 0
           (placed (play example_hash corner_game GameState.__init__) 0 0)).
  - apply (bool_decide_unpack _). by vm_compute.
  - unfold on_grid. lia.
  - by vm_compute.
  - by vm_compute.
  - by vm_compute.
  - by vm_compute.
  - eexists _, _. split; [by vm_compute|]. split; [left|].
    split; [apply (bool_decide_unpack _)|]; by vm_compute.
Defined.

(* ===================================================================== *)
(** ** Ko                                                              *)
(* ===================================================================== *)

(** C1 on the code.  In the ko game White retakes at (1,1).  The board
    this leads to is, cell for cell, a snapshot that is in the history;
    [detect_ko] still answers false, and [update] accepts the move and
    commits it: board, history and turn all change. *)
Theorem ko_recapture_accepted (str_hash : string → Z) :
  let w := play str_hash ko_game GameState.__init__ in
  ∃ hb w',
    resolve_move 1 1 (turn w) (GameState.board w) = (Ok tt, hb)
    ∧ existsb (λ s, bool_decide (Board._board s = Board._board hb))
        (past_boards w) = true
    ∧ fst (GameState.detect_ko str_hash 1 1 w) = Ok false
    ∧ GameState.update str_hash (Move 1 1) w = (Ok tt, w')
    ∧ Board._board (GameState.board w') = Board._board hb
    ∧ Board._board (GameState.board w') ≠ Board._board (GameState.board w)
    ∧ turn w' = COLOR_REVERSE (turn w)
    ∧ length (past_boards w') = S (length (past_boards w)).
Proof.
  cbv zeta.
  rewrite (update_hash_irrelevant str_hash example_hash)
    by apply play_invariant, invariant_init.
  rewrite detect_ko_spec by apply play_invariant, invariant_init.
  rewrite (play_hash_irrelevant str_hash example_hash).
  eexists _, _. split; [by vm_compute|]. split; [by vm_compute|].
  split; [by vm_compute|]. split; [by vm_compute|].
  split; [by vm_compute|]. split; [|by vm_compute].
  apply (bool_decide_eq_false_1 _). by vm_compute.
Qed.

(* ===================================================================== *)
(** ** Capture of a stone whose group has liberties                    *)
(* ===================================================================== *)

(** C4 on the code.  In the chain game Black plays (1,0).  That takes
    the last liberty of the white stone at (2,0), and capture resolution
    removes it.  The white stones at (0,0) and (0,1) stand next to each
    other, so they are one group, and (0,2) is a liberty of it; capture
    resolution removes the stone at (0,0) all the same. *)
Theorem capture_takes_stone_of_live_group (str_hash : string → Z) :
  let w := play str_hash chain_game GameState.__init__ in
  ∃ b1,
    turn w = Color.BLACK
    ∧ GameState._remove_components Color.WHITE (placed w 1 0) = (Ok tt, b1)
    ∧ empty_neighbours (GameState.board w) (Piece.Piece 2 0 Color.WHITE)
      = {[ (1, 0) ]}
    ∧ empty_neighbours (placed w 1 0) (Piece.Piece 2 0 Color.WHITE) = ∅
    ∧ grid_at b1 2 0 = Some PositionState.EMPTY
    ∧ grid_at (placed w 1 0) 0 0 = Some PositionState.WHITE
    ∧ grid_at (placed w 1 0) 0 1 = Some PositionState.WHITE
    ∧ spec_adjacent (Piece.Piece 0 0 Color.WHITE) (Piece.Piece 0 1 Color.WHITE)
      = true
    ∧ (0, 2) ∈ empty_neighbours (placed w 1 0) (Piece.Piece 0 1 Color.WHITE)
    ∧ grid_at b1 0 0 = Some PositionState.EMPTY
    ∧ grid_at b1 0 1 = Some PositionState.WHITE
    ∧ GameState.update str_hash (Move 1 0) w
      = (Ok tt, snd (GameState.update str_hash (Move 1 0) w))
    ∧ Board.pieces
        (GameState.board (snd (GameState.update str_hash (Move 1 0) w)))
      = Board.pieces b1.
Proof.
  cbv zeta.
  rewrite (update_hash_irrelevant str_hash example_hash)
    by apply play_invariant, invariant_init.
  rewrite (play_hash_irrelevant str_hash example_hash).
  eexists. split; [by vm_compute|]. split; [by vm_compute|].
  do 6 (split; [by vm_compute|]).
  split; [apply (bool_decide_unpack _); by vm_compute|].
  do 3 (split; [by vm_compute|]). by vm_compute.
Qed.

(* ===================================================================== *)
(** ** Cells: reading back, bounds, negative indices                   *)
(* ===================================================================== *)

(** X1.  On a board of the engine a write inside the grid succeeds; the
    cell written reads back the value written, every other cell of the
    grid reads as before, and the board keeps its shape and identity. *)
Theorem set_cell_read_back b r c v :
  wf b → on_grid r c →
  ∃ b', Board.set_cell r c v b = Ok b'
    ∧ Board.cell b' r c = Ok v
    ∧ (∀ r' c', on_grid r' c' → (r', c') ≠ (r, c) →
         Board.cell b' r' c' = Board.cell b r' c')
    ∧ wf b' ∧ Board.id b' = Board.id b.
Proof.
  intros Hwf Hrc.
  destruct (set_cell_spec b r c v Hwf Hrc) as (b' & Hset & Hwf' & Hid & Hgrid).
  exists b'. split; [done|]. destruct Hrc as [Hr Hc].
  split; [|split; [|done]].
  - apply cell_grid_at; [lia..|]. by rewrite Hgrid, decide_True.
  - intros r' c' [Hr' Hc'] Hne.
    destruct (wf_cell b r' c' Hwf) as [ps Hps]; [done|]. rewrite Hps.
    apply cell_grid_at; [lia..|]. apply cell_grid_at in Hps; [|lia..].
    rewrite Hgrid, decide_False; [done|].
    intros [Hi Hj]. apply Hne. f_equal; lia.
Qed.

Lemma set_cell_read_back_witness :
  ∃ b', Board.set_cell 3 4 PositionState.WHITE (Board.__init__ 0) = Ok b'
    ∧ Board.cell b' 3 4 = Ok PositionState.WHITE
    ∧ (∀ r' c', on_grid r' c' → (r', c') ≠ (3, 4) →
         Board.cell b' r' c' = Board.cell (Board.__init__ 0) r' c')
    ∧ wf b' ∧ Board.id b' = Board.id (Board.__init__ 0).
Proof.
  apply (set_cell_read_back (Board.__init__ 0) 3 4 PositionState.WHITE).
  - apply wf_init.
  - unfold on_grid. lia.
Defined.

Lemma py_index_out_of_range len i :
  ¬ (- Z.of_nat len ≤ i < Z.of_nat len) → py_index len i = Raise IndexError.
Proof.
  intros Hi. unfold py_index.
  rewrite decide_False by lia. rewrite decide_False by lia. done.
Qed.

Lemma py_index_mod i :
  -19 ≤ i < 19 → py_index 19 i = Ok (Z.to_nat (i mod 19)).
Proof.
  intros Hi. unfold py_index. destruct (decide (0 ≤ i < Z.of_nat 19)) as [H|H].
  - by rewrite Z.mod_small by lia.
  - rewrite decide_True by lia. do 2 f_equal.
    apply (Z.mod_unique_pos _ _ (-1)); lia.
Qed.

Lemma cell_unreadable b r c :
  wf b → ¬ (-19 ≤ r < 19 ∧ -19 ≤ c < 19) →
  Board.cell b r c = Raise IndexError.
Proof.
  intros Hwf Hout. unfold Board.cell, getitem.
  destruct (decide (-19 ≤ r < 19)) as [Hr|Hr].
  - rewrite (proj1 Hwf), py_index_mod by done. cbn [mbind result_bind].
    destruct (wf_lookup_row b (Z.to_nat (r mod 19)) Hwf) as (rw & Hrw & Hlen).
    { pose proof (Z.mod_pos_bound r 19). lia. }
    rewrite Hrw. cbn [mbind result_bind]. rewrite Hlen.
    rewrite py_index_out_of_range; [done|]. simpl. lia.
  - rewrite (proj1 Hwf), py_index_out_of_range; [done|]. simpl. lia.
Qed.

Lemma set_cell_unwritable b r c v :
  wf b → ¬ (-19 ≤ r < 19 ∧ -19 ≤ c < 19) →
  Board.set_cell r c v b = Raise IndexError.
Proof.
  intros Hwf Hout. unfold Board.set_cell, getitem, setitem.
  destruct (decide (-19 ≤ r < 19)) as [Hr|Hr].
  - rewrite (proj1 Hwf), py_index_mod by done. cbn [mbind result_bind].
    destruct (wf_lookup_row b (Z.to_nat (r mod 19)) Hwf) as (rw & Hrw & Hlen).
    { pose proof (Z.mod_pos_bound r 19). lia. }
    rewrite Hrw. cbn [mbind result_bind]. rewrite Hlen.
    rewrite py_index_out_of_range; [done|]. simpl. lia.
  - rewrite (proj1 Hwf), py_index_out_of_range; [done|]. simpl. lia.
Qed.

Lemma cell_mod b r c :
  wf b → -19 ≤ r < 19 → -19 ≤ c < 19 →
  Board.cell b r c = Board.cell b (r mod 19) (c mod 19).
Proof.
  intros Hwf Hr Hc. unfold Board.cell, getitem. rewrite (proj1 Hwf).
  pose proof (Z.mod_pos_bound r 19). pose proof (Z.mod_pos_bound c 19).
  rewrite (py_index_mod r), (py_index_mod (r mod 19)) by lia.
  rewrite Z.mod_mod by lia. cbn [mbind result_bind].
  destruct (wf_lookup_row b (Z.to_nat (r mod 19)) Hwf) as (rw & Hrw & Hlen);
    [lia|].
  rewrite Hrw. cbn [mbind result_bind]. rewrite Hlen.
  rewrite (py_index_mod c), (py_index_mod (c mod 19)) by lia.
  by rewrite Z.mod_mod by lia.
Qed.

Lemma set_cell_mod b r c v :
  wf b → -19 ≤ r < 19 → -19 ≤ c < 19 →
  Board.set_cell r c v b = Board.set_cell (r mod 19) (c mod 19) v b.
Proof.
  intros Hwf Hr Hc. unfold Board.set_cell, getitem, setitem.
  rewrite (proj1 Hwf).
  pose proof (Z.mod_pos_bound r 19). pose proof (Z.mod_pos_bound c 19).
  rewrite (py_index_mod r), (py_index_mod (r mod 19)) by lia.
  rewrite Z.mod_mod by lia. cbn [mbind result_bind].
  destruct (wf_lookup_row b (Z.to_nat (r mod 19)) Hwf) as (rw & Hrw & Hlen);
    [lia|].
  rewrite Hrw. cbn [mbind result_bind]. rewrite Hlen.
  rewrite (py_index_mod c), (py_index_mod (c mod 19)) by lia.
  by rewrite Z.mod_mod by lia.
Qed.

Lemma reachable_init str_hash : reachable str_hash GameState.__init__.
Proof. by exists []. Qed.

Lemma reachable_play str_hash actions :
  reachable str_hash (play str_hash actions GameState.__init__).
Proof. by exists actions. Qed.

Section MoveBounds.
Variable str_hash : string → Z.

Lemma update_move_unreadable w r c e :
  Board.is_position_occupied (GameState.board w) r c = Raise e →
  GameState.update str_hash (Move r c) w = (Raise e, w).
Proof.
  intros Hocc. unfold GameState.update, GameState.get_turn, bind, reads.
  by rewrite Hocc.
Qed.

(** Two moves that read and write the same cells of every board do the
    same to a game. *)
Lemma update_move_congr w r c r' c' :
  invariant w →
  (∀ b, wf b → Board.cell b r c = Board.cell b r' c') →
  (∀ b v, wf b → Board.set_cell r c v b = Board.set_cell r' c' v b) →
  GameState.update str_hash (Move r c) w
  = GameState.update str_hash (Move r' c') w.
Proof.
  intros Hinv Hcell Hset. pose proof Hinv as [Hwf Hids].
  assert (Hocc' : Board.is_position_occupied (GameState.board w) r c
                  = Board.is_position_occupied (GameState.board w) r' c')
    by (unfold Board.is_position_occupied; by rewrite Hcell).
  destruct (Board.is_position_occupied (GameState.board w) r c)
    as [[]|e] eqn:Hocc; symmetry in Hocc'.
  - by rewrite !update_move_occupied.
  - pose proof (detect_ko_spec str_hash w r c Hinv) as Hdk.
    pose proof (detect_ko_spec str_hash w r' c' Hinv) as Hdk'.
    rewrite <- Hset in Hdk' by (by apply wf_copy).
    destruct (Board.set_cell r c _ _) as [hb|e].
    + destruct (update_move_spec str_hash w r c Hwf Hocc) as
        (b0 & b1 & b2 & Hf & Hr1 & Hr2 & _ & _ & _ & ->); [by rewrite Hdk|].
      destruct (update_move_spec str_hash w r' c' Hwf Hocc') as
        (b0' & b1' & b2' & Hf' & Hr1' & Hr2' & _ & _ & _ & ->);
        [by rewrite Hdk'|].
      rewrite !fill_new_piece_set_cell in Hf, Hf'.
      rewrite <- Hset, Hf in Hf' by done. injection Hf' as <-.
      rewrite Hr1 in Hr1'. injection Hr1' as <-.
      rewrite Hr2 in Hr2'. by injection Hr2' as <-.
    + by rewrite (update_move_raised str_hash w r c e _ Hocc Hdk),
        (update_move_raised str_hash w r' c' e _ Hocc' Hdk').
  - by rewrite (update_move_unreadable w r c e Hocc),
      (update_move_unreadable w r' c' e Hocc').
Qed.

End MoveBounds.

(** X2.  A [Move] with a coordinate outside -19..18 raises [IndexError]
    at the occupancy check and leaves the whole world as it was. *)
Theorem update_off_board (str_hash : string → Z) w r c :
  wf (GameState.board w) → ¬ (-19 ≤ r < 19 ∧ -19 ≤ c < 19) →
  GameState.update str_hash (Move r c) w = (Raise IndexError, w).
Proof.
  intros Hwf Hout. apply update_move_unreadable.
  unfold Board.is_position_occupied. by rewrite cell_unreadable.
Qed.

Lemma update_off_board_witness :
  GameState.update example_hash (Move 3 19) GameState.__init__
  = (Raise IndexError, GameState.__init__).
Proof.
  apply update_off_board; [apply wf_init|lia].
Defined.

(** X3.  Negative coordinates are not refused: in a game, a [Move] with
    coordinates in -19..18 does exactly what the [Move] with both
    coordinates taken modulo 19 does, so [Move(-1, -1)] plays the far
    corner (18, 18). *)
Theorem update_negative_index (str_hash : string → Z) w r c :
  reachable str_hash w → -19 ≤ r < 19 → -19 ≤ c < 19 →
  GameState.update str_hash (Move r c) w
  = GameState.update str_hash (Move (r mod 19) (c mod 19)) w.
Proof.
  intros Hw Hr Hc. apply update_move_congr.
  - by apply reachable_invariant with str_hash.
  - intros b Hb. by apply cell_mod.
  - intros b v Hb. by apply set_cell_mod.
Qed.

Lemma update_negative_index_witness :
  GameState.update example_hash (Move (-1) (-1)) GameState.__init__
  = GameState.update example_hash (Move 18 18) GameState.__init__.
Proof.
  apply (update_negative_index example_hash GameState.__init__ (-1) (-1));
    [apply reachable_init|lia|lia].
Defined.

(* ===================================================================== *)
(** ** Neighbours, empty positions, liberties                          *)
(* ===================================================================== *)

(** X4.  For a piece on the grid [adjacent_coordinates] lists, each
    once, exactly the intersections of the grid one step away along a
    row or a column. *)
Theorem adjacent_coordinates_exact p :
  on_grid (Piece.row p) (Piece.col p) →
  NoDup (Piece.adjacent_coordinates p)
  ∧ ∀ r c, (r, c) ∈ Piece.adjacent_coordinates p
           ↔ on_grid r c
             ∧ Z.abs (r - Piece.row p) + Z.abs (c - Piece.col p) = 1.
Proof.
  intros [Hr Hc]. split; [apply adjacent_coordinates_NoDup|].
  intros r c. unfold Piece.adjacent_coordinates, on_grid.
  rewrite !Z.geb_leb, !elem_of_app.
  destruct (Z.leb_spec 1 (Piece.row p)), (Z.leb_spec (Piece.row p) 17),
    (Z.leb_spec 1 (Piece.col p)), (Z.leb_spec (Piece.col p) 17);
    rewrite ?list_elem_of_singleton, ?elem_of_nil;
    (split;
     [ intros [H'|[H'|[H'|H']]]; try done; injection H' as -> ->; lia
     | intros [[Hr' Hc'] Habs];
       assert ((r = Piece.row p - 1 ∧ c = Piece.col p)
               ∨ (r = Piece.row p + 1 ∧ c = Piece.col p)
               ∨ (r = Piece.row p ∧ c = Piece.col p - 1)
               ∨ (r = Piece.row p ∧ c = Piece.col p + 1))
         as [[-> ->]|[[-> ->]|[[-> ->]|[-> ->]]]] by lia;
       first [lia | by left | by right; left | by right; right; left
             | by right; right; right] ]).
Qed.

Lemma adjacent_coordinates_exact_witness :
  NoDup (Piece.adjacent_coordinates (Piece.Piece 0 18 Color.BLACK))
  ∧ ∀ r c, (r, c) ∈ Piece.adjacent_coordinates (Piece.Piece 0 18 Color.BLACK)
           ↔ on_grid r c ∧ Z.abs (r - 0) + Z.abs (c - 18) = 1.
Proof.
  apply (adjacent_coordinates_exact (Piece.Piece 0 18 Color.BLACK)).
  unfold on_grid. simpl. lia.
Defined.

Lemma elem_of_empty_positions b r c :
  (r, c) ∈ Board.empty_positions b
  ↔ 0 ≤ r ∧ 0 ≤ c
    ∧ grid_at b (Z.to_nat r) (Z.to_nat c) = Some PositionState.EMPTY.
Proof.
  unfold Board.empty_positions, grid_at. rewrite list_elem_of_join. split.
  - intros (l & Hp & Hl).
    apply elem_of_lookup_imap in Hl as (i & rw & -> & Hrw).
    apply list_elem_of_join in Hp as (l & Hp & Hl).
    apply elem_of_lookup_imap in Hl as (j & ps & -> & Hps).
    destruct ps; try (by apply not_elem_of_nil in Hp).
    apply list_elem_of_singleton in Hp. injection Hp as -> ->.
    rewrite !Nat2Z.id, Hrw. simpl. split; [lia|split; [lia|done]].
  - intros (Hr & Hc & Hg).
    destruct (Board._board b !! Z.to_nat r) as [rw|] eqn:Hrw;
      simpl in Hg; [|done].
    eexists. split; last first.
    { apply elem_of_lookup_imap. eexists _, rw. split; [reflexivity|done]. }
    apply list_elem_of_join. eexists. split; last first.
    { apply elem_of_lookup_imap. eexists _, _. split; [reflexivity|done]. }
    rewrite !Z2Nat.id by done. by apply list_elem_of_singleton.
Qed.

Lemma empty_positions_NoDup b : NoDup (Board.empty_positions b).
Proof.
  unfold Board.empty_positions.
  apply (NoDup_join_imap (λ rc : Z * Z, Z.to_nat rc.1)).
  - intros i rw rc (l & Hp & Hl)%list_elem_of_join.
    apply elem_of_lookup_imap in Hl as (j & ps & -> & _).
    destruct ps; try (by apply not_elem_of_nil in Hp).
    apply list_elem_of_singleton in Hp as ->. simpl. lia.
  - intros i rw. apply (NoDup_join_imap (λ rc : Z * Z, Z.to_nat rc.2)).
    + intros j ps rc Hp.
      destruct ps; try (by apply not_elem_of_nil in Hp).
      apply list_elem_of_singleton in Hp as ->. simpl. lia.
    + intros j ps. destruct ps;
        [apply NoDup_singleton|apply NoDup_nil_2..].
Qed.

Lemma length_join_imap {A B} (g : A → nat) (f : nat → A → list B) l :
  (∀ i x, length (f i x) = g x) →
  length (mjoin (imap f l)) = sum_list (g <$> l).
Proof.
  revert f. induction l as [|x l IH]; intros f Hf; [done|].
  rewrite imap_cons.
  change (mjoin (f 0%nat x :: imap (f ∘ S) l))
    with (f 0%nat x ++ mjoin (imap (f ∘ S) l)).
  rewrite length_app, Hf.
  rewrite fmap_cons. cbn [sum_list_with]. f_equal.
  apply IH. intros i y. apply Hf.
Qed.

Lemma sum_list_complement {A} (g1 g2 : A → nat) (l : list A) :
  (∀ x, (g1 x + g2 x = 1)%nat) →
  (sum_list (g1 <$> l) + sum_list (g2 <$> l) = length l)%nat.
Proof.
  intros Hg. induction l as [|x l IH]; [done|].
  rewrite !fmap_cons. cbn [sum_list_with length]. unfold id in *.
  specialize (Hg x). lia.
Qed.

(** The two generators share the cells between them. *)
Lemma positions_count b :
  (length (Board.empty_positions b) + length (Board.pieces b))%nat
  = length (mjoin (Board._board b)).
Proof.
  unfold Board.empty_positions, Board.pieces.
  set (e := λ ps, match ps with PositionState.EMPTY => 1%nat | _ => 0%nat end).
  set (s := λ ps, match ps with PositionState.EMPTY => 0%nat | _ => 1%nat end).
  rewrite (length_join_imap (λ rw, sum_list (e <$> rw))); last first.
  { intros i rw. apply length_join_imap. intros j ps. by destruct ps. }
  rewrite (length_join_imap (λ rw, sum_list (s <$> rw))); last first.
  { intros i rw. apply length_join_imap. intros j ps. by destruct ps. }
  induction (Board._board b) as [|rw rows IH]; [done|].
  rewrite !fmap_cons. cbn [sum_list_with].
  change (mjoin (rw :: rows)) with (rw ++ mjoin rows).
  rewrite length_app.
  pose proof (sum_list_complement e s rw) as Hrw.
  rewrite <- IH, <- Hrw by (intros ps; by destruct ps).
  unfold id in *. lia.
Qed.

Lemma wf_cell_count b : wf b → length (mjoin (Board._board b)) = 361%nat.
Proof.
  intros [Hlen Hall].
  assert (length (mjoin (Board._board b))
          = (length (Board._board b) * 19)%nat) as Hcount.
  { clear Hlen. revert Hall. generalize (Board._board b). intros rows Hall.
    induction Hall as [|rw rows Hrw Hall IH]; [done|].
    change (mjoin (rw :: rows)) with (rw ++ mjoin rows).
    rewrite length_app, IH, Hrw. cbn [length]. lia. }
  by rewrite Hcount, Hlen.
Qed.

(** X5.  On a board of the engine [empty_positions] yields, each once,
    exactly the intersections of the grid that [is_position_occupied]
    answers false for; together with [pieces] it accounts for all 361
    intersections. *)
Theorem empty_positions_exact b :
  wf b →
  NoDup (Board.empty_positions b)
  ∧ (∀ r c, (r, c) ∈ Board.empty_positions b
            ↔ on_grid r c ∧ Board.is_position_occupied b r c = Ok false)
  ∧ (length (Board.empty_positions b) + length (Board.pieces b) = 361)%nat.
Proof.
  intros Hwf. split; [apply empty_positions_NoDup|]. split.
  - intros r c. rewrite elem_of_empty_positions. split.
    + intros (Hr & Hc & Hg). pose proof (grid_at_lt _ _ _ _ Hwf Hg).
      split; [unfold on_grid; lia|]. unfold Board.is_position_occupied.
      apply cell_grid_at in Hg; [|done..]. by rewrite Hg.
    + intros [[Hr Hc] Hocc].
      split; [lia|]. split; [lia|].
      apply is_position_occupied_false; [lia..|done].
  - by rewrite positions_count, wf_cell_count.
Qed.

Lemma empty_positions_exact_witness :
  let b := GameState.board (play example_hash scattered_game GameState.__init__) in
  NoDup (Board.empty_positions b)
  ∧ (∀ r c, (r, c) ∈ Board.empty_positions b
            ↔ on_grid r c ∧ Board.is_position_occupied b r c = Ok false)
  ∧ (length (Board.empty_positions b) + length (Board.pieces b) = 361)%nat.
Proof.
  apply (empty_positions_exact
           (GameState.board (play example_hash scattered_game GameState.__init__))).
  apply (bool_decide_unpack _). by vm_compute.
Defined.

Lemma elem_of_empty_neighbours b p r c :
  (r, c) ∈ empty_neighbours b p
  ↔ (r, c) ∈ Piece.adjacent_coordinates p
    ∧ Board.cell b r c = Ok PositionState.EMPTY.
Proof.
  unfold empty_neighbours.
  rewrite elem_of_list_to_set, list_elem_of_filter. simpl. tauto.
Qed.

Lemma count_liberties_fold (b : Board.t) (l : list Piece.t)
    (acc : gset (Z * Z)) :
  wf b → (∀ p, p ∈ l → on_grid (Piece.row p) (Piece.col p)) →
  foldM (λ liberties piece,
    foldM (λ liberties '(row, col),
      position_state ← Board.cell b row col;
      match position_state with
      | PositionState.EMPTY => Ok (liberties ∪ {[(row, col)]})
      | _ => Ok liberties
      end) (Piece.adjacent_coordinates piece) liberties) l acc
  = Ok (acc ∪ ⋃ (empty_neighbours b <$> l)).
Proof.
  intros Hwf. revert acc. induction l as [|p l IH]; intros acc Hl.
  - simpl. by rewrite (right_id_L ∅ (∪)).
  - cbn [foldM]. rewrite liberties_fold; last first.
    { intros rc Hrc. apply wf_cell; [done|].
      eapply adjacent_on_grid; [|done]. apply Hl. left. }
    cbn [mbind result_bind]. rewrite IH by (intros q Hq; apply Hl; by right).
    rewrite fmap_cons, union_list_cons, (assoc_L (∪)). done.
Qed.

(** X6.  For any set of pieces on the grid of a board of the engine,
    [count_liberties] returns, and what it returns is exactly the set of
    empty intersections next to at least one of the pieces. *)
Theorem count_liberties_exact b (group : gset Piece.t) :
  wf b → (∀ p, p ∈ group → on_grid (Piece.row p) (Piece.col p)) →
  ∃ liberties : gset (Z * Z),
    Board.count_liberties b group = Ok liberties
    ∧ ∀ r c, (r, c) ∈ liberties
             ↔ ∃ p, p ∈ group ∧ (r, c) ∈ Piece.adjacent_coordinates p
                    ∧ Board.cell b r c = Ok PositionState.EMPTY.
Proof.
  intros Hwf Hgroup. eexists. split.
  - unfold Board.count_liberties. apply count_liberties_fold; [done|].
    intros p Hp. apply Hgroup. by apply elem_of_elements.
  - intros r c. rewrite (left_id_L ∅ (∪)), elem_of_union_list. split.
    + intros (X & (p & -> & Hp)%list_elem_of_fmap & Hrc).
      exists p. split; [by apply elem_of_elements|].
      by apply elem_of_empty_neighbours.
    + intros (p & Hp & Hrc). exists (empty_neighbours b p). split.
      * apply list_elem_of_fmap_2. by apply elem_of_elements.
      * by apply elem_of_empty_neighbours.
Qed.

Lemma count_liberties_exact_witness :
  let b := GameState.board (play example_hash chain_game GameState.__init__) in
  let group : gset Piece.t :=
    {[Piece.Piece 0 0 Color.WHITE; Piece.Piece 0 1 Color.WHITE]} in
  ∃ liberties : gset (Z * Z),
    Board.count_liberties b group = Ok liberties
    ∧ ∀ r c, (r, c) ∈ liberties
             ↔ ∃ p, p ∈ group ∧ (r, c) ∈ Piece.adjacent_coordinates p
                    ∧ Board.cell b r c = Ok PositionState.EMPTY.
Proof.
  apply (count_liberties_exact
           (GameState.board (play example_hash chain_game GameState.__init__))
           {[Piece.Piece 0 0 Color.WHITE; Piece.Piece 0 1 Color.WHITE]}).
  - apply (bool_decide_unpack _). by vm_compute.
  - intros p [->%elem_of_singleton| ->%elem_of_singleton]%elem_of_union;
      unfold on_grid; simpl; lia.
Defined.

(** X7.  On a board of the engine [get_groups] never puts two stones in
    one group: it returns as many groups as there are stones of the
    colour, each holding one stone, with the empty intersections next to
    that stone as its liberties. *)
Theorem get_groups_single_stones b color :
  wf b →
  ∃ groups, Board.get_groups b color = Ok groups
    ∧ length groups
      = length (filter (λ p, Piece.color p = color) (Board.pieces b))
    ∧ ∀ g, g ∈ groups →
        ∃ p, Group.pieces g = {[p]}
          ∧ p ∈ Board.pieces b ∧ Piece.color p = color
          ∧ ∀ r c, (r, c) ∈ Group.liberties g
                   ↔ (r, c) ∈ Piece.adjacent_coordinates p
                     ∧ Board.cell b r c = Ok PositionState.EMPTY.
Proof.
  intros Hwf. eexists. split; [by apply get_groups_spec|]. split.
  - rewrite length_fmap. unfold stones.
    change (length (elements ?X)) with (size X).
    apply size_list_to_set, list.NoDup_filter, pieces_NoDup.
  - intros g (p & -> & Hp)%list_elem_of_fmap. exists p.
    apply elem_of_elements, elem_of_stones in Hp as [Hp Hcol].
    split; [done|]. split; [by apply elem_of_pieces|]. split; [done|].
    intros r c. apply elem_of_empty_neighbours.
Qed.

Lemma get_groups_single_stones_witness :
  let b := GameState.board (play example_hash chain_game GameState.__init__) in
  ∃ groups, Board.get_groups b Color.WHITE = Ok groups
    ∧ length groups
      = length (filter (λ p, Piece.color p = Color.WHITE) (Board.pieces b))
    ∧ ∀ g, g ∈ groups →
        ∃ p, Group.pieces g = {[p]}
          ∧ p ∈ Board.pieces b ∧ Piece.color p = Color.WHITE
          ∧ ∀ r c, (r, c) ∈ Group.liberties g
                   ↔ (r, c) ∈ Piece.adjacent_coordinates p
                     ∧ Board.cell b r c = Ok PositionState.EMPTY.
Proof.
  apply (get_groups_single_stones
           (GameState.board (play example_hash chain_game GameState.__init__))
           Color.WHITE).
  apply (bool_decide_unpack _). by vm_compute.
Defined.

(* ===================================================================== *)
(** ** What capture resolution removes                                 *)
(* ===================================================================== *)

Lemma captured_cell b color r c :
  0 ≤ r → 0 ≤ c →
  captured b color (Z.to_nat r) (Z.to_nat c)
  ↔ Board.cell b r c = Ok (stone_state color)
    ∧ empty_neighbours b (Piece.Piece r c color) = ∅.
Proof.
  intros Hr Hc. unfold captured. rewrite !Z2Nat.id by done.
  by rewrite <- cell_grid_at.
Qed.

(** X8.  On a board of the engine capture resolution for a colour
    returns normally and empties exactly the intersections that hold a
    stone of that colour with no empty intersection next to it; every
    other cell, of either colour, is left as it was. *)
Theorem remove_components_exact color b :
  wf b →
  ∃ b', GameState._remove_components color b = (Ok tt, b')
    ∧ wf b' ∧ Board.id b' = Board.id b
    ∧ ∀ r c, on_grid r c →
        Board.cell b' r c
        = if decide (Board.cell b r c = Ok (stone_state color)
                     ∧ empty_neighbours b (Piece.Piece r c color) = ∅)
          then Ok PositionState.EMPTY
          else Board.cell b r c.
Proof.
  intros Hwf.
  destruct (remove_components_spec color b Hwf)
    as (b' & Hrun & Hwf' & Hid & Hgrid).
  exists b'. split; [done|]. split; [done|]. split; [done|].
  intros r c [Hr Hc].
  destruct (wf_cell b r c Hwf) as [ps Hps]; [done|].
  pose proof Hps as Hg. apply cell_grid_at in Hg; [|lia..].
  case_decide as Hcap.
  - apply cell_grid_at; [lia..|]. rewrite Hgrid, decide_True; [done|].
    apply captured_cell; [lia..|done].
  - rewrite Hps. apply cell_grid_at; [lia..|].
    rewrite Hgrid, decide_False; [done|].
    intros Hcap'. apply Hcap. apply captured_cell; [lia..|done].
Qed.

Lemma remove_components_exact_witness :
  let b := placed (play example_hash chain_game GameState.__init__) 1 0 in
  ∃ b', GameState._remove_components Color.WHITE b = (Ok tt, b')
    ∧ wf b' ∧ Board.id b' = Board.id b
    ∧ ∀ r c, on_grid r c →
        Board.cell b' r c
        = if decide (Board.cell b r c = Ok (stone_state Color.WHITE)
                     ∧ empty_neighbours b (Piece.Piece r c Color.WHITE) = ∅)
          then Ok PositionState.EMPTY
          else Board.cell b r c.
Proof.
  apply (remove_components_exact Color.WHITE
           (placed (play example_hash chain_game GameState.__init__) 1 0)).
  apply (bool_decide_unpack _). by vm_compute.
Defined.

Lemma board_ext b1 b2 :
  wf b1 → wf b2 → Board.id b1 = Board.id b2 →
  (∀ i j, grid_at b1 i j = grid_at b2 i j) → b1 = b2.
Proof.
  intros Hwf1 Hwf2 Hid Hgrid.
  assert (Board._board b1 = Board._board b2) as Hcells.
  { apply wf_cellwise_equal; [done..|]. intros r c [Hr Hc].
    destruct (wf_cell b1 r c Hwf1) as [ps Hps]; [done|]. rewrite Hps.
    symmetry. apply cell_grid_at; [lia..|]. rewrite <- Hgrid.
    apply cell_grid_at; [lia..|done]. }
  destruct b1, b2. simpl in *. congruence.
Qed.

(** X9.  Capture resolution for a colour is idempotent: what a first
    run leaves on the board has a liberty, so a second run for the same
    colour changes nothing. *)
Theorem remove_components_idempotent color b :
  wf b →
  ∃ b', GameState._remove_components color b = (Ok tt, b')
    ∧ GameState._remove_components color b' = (Ok tt, b').
Proof.
  intros Hwf.
  destruct (remove_components_spec color b Hwf)
    as (b' & Hrun & Hwf' & Hid & Hgrid).
  destruct (remove_components_spec color b' Hwf')
    as (b'' & Hrun' & Hwf'' & Hid' & Hgrid').
  exists b'. split; [done|]. rewrite Hrun'. f_equal.
  apply board_ext; [done..|]. intros i j.
  rewrite Hgrid', decide_False; [done|]. intros [Hstone Hnone].
  rewrite Hgrid in Hstone. case_decide as Hcap.
  { injection Hstone as Hstone. symmetry in Hstone.
    by apply stone_state_not_empty in Hstone. }
  pose proof (grid_at_lt _ _ _ _ Hwf Hstone) as [Hi Hj].
  assert (empty_neighbours b (Piece.Piece (Z.of_nat i) (Z.of_nat j) color) ≠ ∅)
    as Hsome by (intros Hnone'; by apply Hcap).
  apply set_choose_L in Hsome as [[r c] Hrc].
  apply elem_of_empty_neighbours in Hrc as [Hadj Hempty].
  assert (on_grid r c) as [Hr Hc].
  { apply (adjacent_on_grid _ (r, c)) in Hadj; [done|].
    unfold on_grid. simpl. lia. }
  assert ((r, c) ∈ empty_neighbours b'
            (Piece.Piece (Z.of_nat i) (Z.of_nat j) color)) as Hin.
  { apply elem_of_empty_neighbours. split; [done|].
    apply cell_grid_at; [lia..|]. apply cell_grid_at in Hempty; [|lia..].
    rewrite Hgrid. by case_decide. }
  rewrite Hnone in Hin. by apply not_elem_of_empty in Hin.
Qed.

Lemma remove_components_idempotent_witness :
  let b := placed (play example_hash chain_game GameState.__init__) 1 0 in
  ∃ b', GameState._remove_components Color.WHITE b = (Ok tt, b')
    ∧ GameState._remove_components Color.WHITE b' = (Ok tt, b').
Proof.
  apply (remove_components_idempotent Color.WHITE
           (placed (play example_hash chain_game GameState.__init__) 1 0)).
  apply (bool_decide_unpack _). by vm_compute.
Defined.

(* ===================================================================== *)
(** ** What a call of [update] comes to                                *)
(* ===================================================================== *)

Lemma empty_positions_cons b i j :
  grid_at b i j = Some PositionState.EMPTY → Board.empty_positions b ≠ [].
Proof.
  intros Hg Hnil.
  assert ((Z.of_nat i, Z.of_nat j) ∈ Board.empty_positions b) as Hin.
  { apply elem_of_empty_positions. rewrite !Nat2Z.id.
    split; [lia|]. split; [lia|done]. }
  rewrite Hnil in Hin. by apply not_elem_of_nil in Hin.
Qed.

(** Placing a stone and resolving captures never leaves the board full:
    the placed stone is not taken by the opponent's pass, and then
    either it has an empty neighbour or the mover's pass takes it. *)
Lemma resolve_leaves_empty b r c color i j b0 b1 b2 :
  wf b → py_index 19 r = Ok i → py_index 19 c = Ok j →
  Board.set_cell r c (stone_state color) b = Ok b0 →
  GameState._remove_components (COLOR_REVERSE color) b0 = (Ok tt, b1) →
  GameState._remove_components color b1 = (Ok tt, b2) →
  Board.empty_positions b2 ≠ [].
Proof.
  intros Hwf Hi Hj Hset Hrm1 Hrm2.
  destruct (set_cell_valid b r c (stone_state color) i j Hwf Hi Hj)
    as (b0' & Hset' & Hwf0 & _ & Hg0).
  rewrite Hset in Hset'. injection Hset' as <-.
  destruct (remove_components_spec (COLOR_REVERSE color) b0 Hwf0)
    as (b1' & Hrm1' & Hwf1 & _ & Hg1).
  rewrite Hrm1 in Hrm1'. injection Hrm1' as <-.
  destruct (remove_components_spec color b1 Hwf1)
    as (b2' & Hrm2' & Hwf2 & _ & Hg2).
  rewrite Hrm2 in Hrm2'. injection Hrm2' as <-.
  assert (grid_at b1 i j = Some (stone_state color)) as Hstone.
  { rewrite Hg1, decide_False.
    - rewrite Hg0, decide_True; done.
    - intros [Hopp _]. rewrite Hg0, decide_True in Hopp by done.
      injection Hopp as Hopp. symmetry in Hopp.
      by apply stone_state_reverse in Hopp. }
  destruct (decide (captured b1 color i j)) as [Hcap|Hcap].
  { apply (empty_positions_cons b2 i j). by rewrite Hg2, decide_True. }
  pose proof (py_index_lt _ _ _ Hi). pose proof (py_index_lt _ _ _ Hj).
  assert (empty_neighbours b1 (Piece.Piece (Z.of_nat i) (Z.of_nat j) color) ≠ ∅)
    as Hsome by (intros Hnone; by apply Hcap).
  apply set_choose_L in Hsome as [[r' c'] Hrc].
  apply elem_of_empty_neighbours in Hrc as [Hadj Hempty].
  assert (on_grid r' c') as [Hr' Hc'].
  { apply (adjacent_on_grid _ (r', c')) in Hadj; [done|].
    unfold on_grid. simpl. lia. }
  apply cell_grid_at in Hempty; [|lia..].
  apply (empty_positions_cons b2 (Z.to_nat r') (Z.to_nat c')).
  rewrite Hg2. by case_decide.
Qed.

Section Outcome.
Variable str_hash : string → Z.

(** Every call of [update] in a game comes to one of two things: it
    raises and the game object is as before, or it returns, and then the
    game has the board the action leads to, the other colour to play and
    one more snapshot, a copy of that board. *)
Lemma update_outcome a w :
  invariant w →
  (∃ e, fst (GameState.update str_hash a w) = Raise e
        ∧ GameState.this (snd (GameState.update str_hash a w))
          = GameState.this w
        ∧ a ≠ Pass
        ∧ (∀ r c, a = Move r c →
             Board.is_position_occupied (GameState.board w) r c ≠ Ok false))
  ∨ (∃ b2 n,
       GameState.update str_hash a w
       = (Ok tt,
          {| GameState.next_id := S n;
             GameState.this :=
               {| GameState._board := b2;
                  GameState._turn := COLOR_REVERSE (turn w);
                  GameState._num_of_passes :=
                    num_of_passes w + (if is_pass a then 1 else 0);
                  GameState._past_boards :=
                    past_boards w ++ [Board.__copy__ b2 n] |} |})
       ∧ (GameState.next_id w ≤ n)%nat
       ∧ wf b2 ∧ Board.id b2 = Board.id (GameState.board w)
       ∧ (a = Pass → b2 = GameState.board w)
       ∧ (∀ r c, a = Move r c →
            Board.is_position_occupied (GameState.board w) r c = Ok false
            ∧ resolve_move r c (turn w) (GameState.board w) = (Ok tt, b2)
            ∧ Board.empty_positions b2 ≠ [])).
Proof.
  intros Hinv. pose proof Hinv as [Hwf Hids]. destruct a as [|r c|].
  - right. exists (GameState.board w), (GameState.next_id w).
    split; [|split; [lia|]; split; [done|]; split; [done|]; by split].
    unfold GameState.update, GameState.get_turn, GameState.add_pass,
      GameState.get_board, GameState.copy, GameState.get_past_boards,
      GameState.set_past_boards, GameState.set_turn, bind, reads, assign.
    cbn [fst snd GameState.this GameState._past_boards GameState.next_id
         GameState._board GameState._turn GameState._num_of_passes is_pass].
    by rewrite (set_add_fresh _ _ _ (GameState.next_id w)).
  - destruct (Board.is_position_occupied (GameState.board w) r c)
      as [[]|e] eqn:Hocc.
    + left. exists IllegalMoveError. rewrite update_move_occupied by done.
      split; [done|]. split; [done|]. split; [done|].
      intros ? ? [= <- <-]. by rewrite Hocc.
    + right.
      destruct (is_position_occupied_valid _ _ _ _ Hwf Hocc)
        as (i & j & ps & Hi & Hj & _).
      pose proof (detect_ko_spec str_hash w r c Hinv) as Hdk.
      destruct (set_cell_valid
                  (Board.__copy__ (GameState.board w) (GameState.next_id w))
                  r c (stone_state (turn w)) i j) as (hb & Hhb & _);
        [by apply wf_copy|done..|].
      rewrite Hhb in Hdk.
      destruct (update_move_spec str_hash w r c Hwf Hocc) as
        (b0 & b1 & b2 & Hf & Hr1 & Hr2 & Hwf0 & Hwf1 & Hwf2 & Hupd);
        [by rewrite Hdk|].
      exists b2, (S (GameState.next_id w)). split.
      { rewrite Hupd. cbn [is_pass]. rewrite Z.add_0_r.
        rewrite (set_add_fresh _ _ _ (S (GameState.next_id w))); [done| |done].
        eapply Forall_impl; [|exact Hids]. simpl. lia. }
      split; [lia|]. split; [done|].
      rewrite fill_new_piece_set_cell in Hf.
      destruct (set_cell_Ok _ _ _ _ _ Hwf Hf) as [_ Hid0].
      destruct (remove_components_spec (COLOR_REVERSE (turn w)) b0 Hwf0)
        as (b1' & Hr1' & _ & Hid1 & _).
      rewrite Hr1 in Hr1'. injection Hr1' as <-.
      destruct (remove_components_spec (turn w) b1 Hwf1)
        as (b2' & Hr2' & _ & Hid2 & _).
      rewrite Hr2 in Hr2'. injection Hr2' as <-.
      split; [congruence|]. split; [done|].
      intros ? ? [= <- <-]. split; [done|]. split.
      * unfold resolve_move, bind, assign.
        by rewrite fill_new_piece_set_cell, Hf, Hr1, Hr2.
      * by eapply (resolve_leaves_empty (GameState.board w) r c (turn w) i j).
    + left. exists e. rewrite (update_move_unreadable str_hash w r c e Hocc).
      split; [done|]. split; [done|]. split; [done|].
      intros ? ? [= <- <-]. by rewrite Hocc.
  - left. exists NotImplementedError. by repeat split.
Qed.

Lemma update_playable a w :
  playable w → playable (snd (GameState.update str_hash a w)).
Proof.
  intros [Hinv Hempty]. split; [by apply update_invariant|].
  destruct (update_outcome a w Hinv)
    as [(e & _ & Hthis & _)|(b2 & n & Hupd & _ & _ & _ & Hpass & Hmove)].
  - unfold GameState.board. by rewrite Hthis.
  - destruct a as [|r c|].
    + rewrite Hupd. unfold GameState.board.
      cbn [snd GameState.this GameState._board]. by rewrite Hpass.
    + rewrite Hupd. unfold GameState.board.
      cbn [snd GameState.this GameState._board].
      by destruct (Hmove r c eq_refl) as (_ & _ & ?).
    + unfold GameState.update, GameState.get_turn, bind, reads, raise in Hupd.
      discriminate Hupd.
Qed.

Lemma playable_init : playable GameState.__init__.
Proof. split; [apply invariant_init|done]. Qed.

Lemma play_playable actions w :
  playable w → playable (play str_hash actions w).
Proof.
  revert w. induction actions as [|a actions IH]; intros w Hw; [done|].
  cbn [play]. by apply IH, update_playable.
Qed.

Lemma reachable_playable w : reachable str_hash w → playable w.
Proof. intros [actions ->]. apply play_playable, playable_init. Qed.

End Outcome.

(** X10.  In a game [detect_ko] never answers [True], not even for a
    move that repeats a position: for coordinates in -19..18 it answers
    false, for any others it raises [IndexError]; and it leaves the game
    object as it found it. *)
Theorem detect_ko_answers_false (str_hash : string → Z) w r c :
  reachable str_hash w →
  fst (GameState.detect_ko str_hash r c w)
  = (if decide (-19 ≤ r < 19 ∧ -19 ≤ c < 19) then Ok false
     else Raise IndexError)
  ∧ GameState.this (snd (GameState.detect_ko str_hash r c w))
    = GameState.this w.
Proof.
  intros Hw%reachable_invariant. pose proof Hw as [Hwf _].
  rewrite detect_ko_spec by done. split; [|done]. cbn [fst].
  case_decide as Hrc.
  - destruct Hrc as [Hr Hc].
    destruct (set_cell_valid
                (Board.__copy__ (GameState.board w) (GameState.next_id w))
                r c (stone_state (turn w)) _ _ (wf_copy _ _ Hwf)
                (py_index_mod r Hr) (py_index_mod c Hc)) as (hb & -> & _).
    done.
  - by rewrite set_cell_unwritable by (done || by apply wf_copy).
Qed.

Lemma detect_ko_answers_false_witness :
  let w := play example_hash ko_game GameState.__init__ in
  fst (GameState.detect_ko example_hash 1 1 w) = Ok false
  ∧ GameState.this (snd (GameState.detect_ko example_hash 1 1 w))
    = GameState.this w.
Proof.
  apply (detect_ko_answers_false example_hash
           (play example_hash ko_game GameState.__init__) 1 1).
  apply reachable_play.
Defined.

(** X11.  In a game the only thing that decides whether a [Move] is
    accepted is the cell it names: [update] raises [IndexError] when the
    cell cannot be read, [IllegalMoveError] when it holds a stone, and
    returns normally whenever it is empty. *)
Theorem update_move_outcome (str_hash : string → Z) w r c :
  reachable str_hash w →
  fst (GameState.update str_hash (Move r c) w)
  = (occupied ← Board.is_position_occupied (GameState.board w) r c;
     if occupied : bool then Raise IllegalMoveError else Ok tt).
Proof.
  intros Hw%reachable_invariant.
  destruct (update_outcome str_hash (Move r c) w Hw)
    as [(e & He & _ & _ & Hne)|(b2 & n & -> & _ & _ & _ & _ & Hmove)].
  - specialize (Hne r c eq_refl).
    destruct (Board.is_position_occupied (GameState.board w) r c)
      as [[]|e'] eqn:Hocc; [|done|].
    + by rewrite update_move_occupied.
    + by rewrite (update_move_unreadable str_hash w r c e').
  - by destruct (Hmove r c eq_refl) as (-> & _).
Qed.

Lemma update_move_outcome_witness :
  let w := play example_hash suicide_game GameState.__init__ in
  fst (GameState.update example_hash (Move 0 0) w)
  = (occupied ← Board.is_position_occupied (GameState.board w) 0 0;
     if occupied : bool then Raise IllegalMoveError else Ok tt).
Proof.
  apply (update_move_outcome example_hash
           (play example_hash suicide_game GameState.__init__) 0 0).
  apply reachable_play.
Defined.

(** X12.  In a game a call of [update] that raises, whatever the action
    and the exception, leaves the game object as it found it: board,
    turn, pass counter and history. *)
Theorem update_raise_keeps_game (str_hash : string → Z) a w e :
  reachable str_hash w →
  fst (GameState.update str_hash a w) = Raise e →
  GameState.this (snd (GameState.update str_hash a w)) = GameState.this w.
Proof.
  intros Hw%reachable_invariant Hraise.
  destruct (update_outcome str_hash a w Hw)
    as [(e' & _ & Hthis & _)|(b2 & n & Hupd & _)]; [done|].
  rewrite Hupd in Hraise. discriminate Hraise.
Qed.

Lemma update_raise_keeps_game_witness :
  let w := play example_hash [Move 3 3] GameState.__init__ in
  GameState.this (snd (GameState.update example_hash (Move 3 3) w))
  = GameState.this w.
Proof.
  apply (update_raise_keeps_game example_hash (Move 3 3)
           (play example_hash [Move 3 3] GameState.__init__) IllegalMoveError).
  - apply reachable_play.
  - by vm_compute.
Defined.

(** X13.  In a game a call of [update] that returns hands the turn to
    the other colour, keeps the board object and its 19 by 19 shape, and
    adds exactly one snapshot to the history: a new object, found under
    no earlier entry, holding the cells of the board as the call left
    it.  A [Pass] leaves the board alone; a [Move] leaves on it what
    placing the stone and resolving captures, opponent first, gives. *)
Theorem update_return_effects (str_hash : string → Z) a w :
  reachable str_hash w →
  fst (GameState.update str_hash a w) = Ok tt →
  let w' := snd (GameState.update str_hash a w) in
  turn w' = COLOR_REVERSE (turn w)
  ∧ wf (GameState.board w')
  ∧ Board.id (GameState.board w') = Board.id (GameState.board w)
  ∧ (∃ s, past_boards w' = past_boards w ++ [s]
          ∧ Board._board s = Board._board (GameState.board w')
          ∧ Board.id s ∉ (Board.id <$> past_boards w))
  ∧ (a = Pass → GameState.board w' = GameState.board w)
  ∧ (∀ r c, a = Move r c →
       resolve_move r c (turn w) (GameState.board w)
       = (Ok tt, GameState.board w')).
Proof.
  intros Hw%reachable_invariant Hret. pose proof Hw as [_ Hids].
  destruct (update_outcome str_hash a w Hw)
    as [(e & He & _)|(b2 & n & Hupd & Hn & Hwf2 & Hid2 & Hpass & Hmove)];
    [congruence|].
  rewrite Hupd. unfold turn, past_boards, GameState.board.
  cbn [snd GameState.this GameState._board GameState._turn
       GameState._past_boards].
  split; [done|]. split; [done|]. split; [done|]. split.
  - eexists. split; [done|]. split; [apply copy_cells|].
    intros (s & Hs & Hin)%list_elem_of_fmap. cbn [Board.__copy__ Board.id] in Hs.
    unfold ids_fresh, past_boards in Hids.
    rewrite list.Forall_forall in Hids. apply Hids in Hin. lia.
  - split; [done|]. intros r c Ha. by destruct (Hmove r c Ha) as (_ & ? & _).
Qed.

Lemma update_return_effects_witness :
  let w := play example_hash ko_game GameState.__init__ in
  let w' := snd (GameState.update example_hash (Move 1 1) w) in
  turn w' = COLOR_REVERSE (turn w)
  ∧ wf (GameState.board w')
  ∧ Board.id (GameState.board w') = Board.id (GameState.board w)
  ∧ (∃ s, past_boards w' = past_boards w ++ [s]
          ∧ Board._board s = Board._board (GameState.board w')
          ∧ Board.id s ∉ (Board.id <$> past_boards w))
  ∧ (Move 1 1 = Pass → GameState.board w' = GameState.board w)
  ∧ (∀ r c, Move 1 1 = Move r c →
       resolve_move r c (turn w) (GameState.board w)
       = (Ok tt, GameState.board w')).
Proof.
  apply (update_return_effects example_hash (Move 1 1)
           (play example_hash ko_game GameState.__init__)).
  - apply reachable_play.
  - by vm_compute.
Defined.

(** X14.  The board of a game is never full: after every call of
    [update] at least one intersection is empty. *)
Theorem board_never_full (str_hash : string → Z) w :
  reachable str_hash w → Board.empty_positions (GameState.board w) ≠ [].
Proof. intros Hw. by apply (reachable_playable str_hash w). Qed.

Lemma board_never_full_witness :
  Board.empty_positions
    (GameState.board (play example_hash suicide_game GameState.__init__)) ≠ [].
Proof.
  apply (board_never_full example_hash). apply reachable_play.
Defined.

(* ===================================================================== *)
(** ** The bot and the game loop                                       *)
(* ===================================================================== *)

Lemma playable_alloc w :
  playable w →
  playable {| GameState.next_id := S (GameState.next_id w);
              GameState.this := GameState.this w |}.
Proof.
  intros [[Hwf Hids] Hempty]. split; [split|]; try done.
  by apply ids_fresh_alloc.
Qed.

Section Bot.
Variable str_hash : string → Z.

(** The bot takes the first coordinates of its shuffled list. *)
Lemma decide_spec (shuffle : list (Z * Z) → list (Z * Z)) w :
  playable w →
  shuffle (Board.empty_positions (GameState.board w))
    ≡ₚ Board.empty_positions (GameState.board w) →
  ∃ r c rest,
    shuffle (Board.empty_positions (GameState.board w)) = (r, c) :: rest
    ∧ (r, c) ∈ Board.empty_positions (GameState.board w)
    ∧ RandBot.decide str_hash shuffle w
      = (Ok (Move r c),
         {| GameState.next_id := S (GameState.next_id w);
            GameState.this := GameState.this w |}).
Proof.
  intros [Hinv Hempty] Hperm. pose proof Hinv as [Hwf _].
  unfold RandBot.decide, GameState.get_board, bind at 1, reads.
  fold (GameState.board w).
  destruct (shuffle (Board.empty_positions (GameState.board w)))
    as [|[r c] rest] eqn:Hsh.
  { by apply Permutation_nil in Hperm. }
  assert ((r, c) ∈ Board.empty_positions (GameState.board w)) as Hin
    by (rewrite <- Hperm; left).
  exists r, c, rest. split; [done|]. split; [done|].
  apply elem_of_empty_positions in Hin as (Hr & Hc & Hg).
  pose proof (grid_at_lt _ _ _ _ Hwf Hg) as [Hi Hj].
  cbn [RandBot.decide_loop fst snd]. unfold bind.
  rewrite detect_ko_spec by done.
  destruct (set_cell_spec
              (Board.__copy__ (GameState.board w) (GameState.next_id w))
              r c (stone_state (turn w))) as (hb & -> & _);
    [by apply wf_copy|unfold on_grid; lia|].
  done.
Qed.

Lemma start_spec (shuffles : nat → list (Z * Z) → list (Z * Z)) rounds k w :
  (∀ k l, shuffles k l ≡ₚ l) →
  playable w → num_of_passes w = 0 →
  ∃ w', Game.start str_hash shuffles rounds k w = (Ok false, w')
        ∧ playable w' ∧ num_of_passes w' = 0.
Proof.
  intros Hperm. revert k w. induction rounds as [|rounds IH]; intros k w Hw Hp.
  - by exists w.
  - cbn [Game.start]. unfold bind at 1, reads at 1, GameState.is_ended.
    unfold num_of_passes in Hp. rewrite Hp. cbn [Z.eqb].
    destruct (decide_spec (shuffles k) w Hw (Hperm k _))
      as (r & c & rest & _ & Hin & Hdec).
    unfold bind at 1. rewrite Hdec.
    pose proof (playable_alloc w Hw) as Hw1.
    set (w1 := {| GameState.next_id := S (GameState.next_id w);
                  GameState.this := GameState.this w |}) in *.
    pose proof (update_playable str_hash (Move r c) w1 Hw1) as Hw2.
    pose proof (update_num_of_passes str_hash (Move r c) w1) as Hp2.
    destruct (update_outcome str_hash (Move r c) w1 (proj1 Hw1))
      as [(e & _ & _ & _ & Hne)|(b2 & n & Hupd & _)].
    { exfalso. apply (Hne r c eq_refl).
      apply elem_of_empty_positions in Hin as (Hr & Hc & Hg).
      unfold Board.is_position_occupied.
      apply cell_grid_at in Hg; [|done..].
      unfold GameState.board in *. cbn [w1 GameState.this]. by rewrite Hg. }
    unfold bind at 1. rewrite Hupd in *. cbn [snd] in Hw2, Hp2.
    apply IH; [done|].
    rewrite Hp2. unfold num_of_passes. cbn [w1 GameState.this is_pass]. lia.
Qed.

End Bot.

(** X15.  In a game, whatever way the shuffle orders the empty
    positions, [RandBot.decide] never passes: it answers with the [Move]
    to the first coordinates of the shuffled list, an empty intersection
    of the grid, whether or not the move repeats a position or leaves
    the stone without a liberty; it leaves the game object alone, and
    [update] accepts the move. *)
Theorem randbot_decide_moves (str_hash : string → Z)
    (shuffle : list (Z * Z) → list (Z * Z)) w :
  reachable str_hash w →
  shuffle (Board.empty_positions (GameState.board w))
    ≡ₚ Board.empty_positions (GameState.board w) →
  ∃ r c,
    fst (RandBot.decide str_hash shuffle w) = Ok (Move r c)
    ∧ head (shuffle (Board.empty_positions (GameState.board w))) = Some (r, c)
    ∧ on_grid r c
    ∧ Board.is_position_occupied (GameState.board w) r c = Ok false
    ∧ GameState.this (snd (RandBot.decide str_hash shuffle w))
      = GameState.this w
    ∧ fst (GameState.update str_hash (Move r c)
             (snd (RandBot.decide str_hash shuffle w))) = Ok tt.
Proof.
  intros Hw%reachable_playable Hperm. pose proof Hw as [[Hwf _] _].
  destruct (decide_spec str_hash shuffle w Hw Hperm)
    as (r & c & rest & Hsh & Hin & Hdec).
  exists r, c. rewrite Hdec, Hsh. cbn [fst snd head GameState.this].
  apply elem_of_empty_positions in Hin as (Hr & Hc & Hg).
  pose proof (grid_at_lt _ _ _ _ Hwf Hg) as [Hi Hj].
  assert (Board.is_position_occupied (GameState.board w) r c = Ok false)
    as Hocc.
  { unfold Board.is_position_occupied.
    apply cell_grid_at in Hg; [|done..]. by rewrite Hg. }
  split; [done|]. split; [done|]. split; [unfold on_grid; lia|].
  split; [done|]. split; [done|].
  destruct (update_outcome str_hash (Move r c) _ (proj1 (playable_alloc w Hw)))
    as [(e & _ & _ & _ & Hne)|(b2 & n & -> & _)]; [|done].
  exfalso. by apply (Hne r c eq_refl).
Qed.

Lemma randbot_decide_moves_witness :
  let w := play example_hash suicide_game GameState.__init__ in
  ∃ r c,
    fst (RandBot.decide example_hash (λ l, l) w) = Ok (Move r c)
    ∧ head (Board.empty_positions (GameState.board w)) = Some (r, c)
    ∧ on_grid r c
    ∧ Board.is_position_occupied (GameState.board w) r c = Ok false
    ∧ GameState.this (snd (RandBot.decide example_hash (λ l, l) w))
      = GameState.this w
    ∧ fst (GameState.update example_hash (Move r c)
             (snd (RandBot.decide example_hash (λ l, l) w))) = Ok tt.
Proof.
  apply (randbot_decide_moves example_hash (λ l, l)
           (play example_hash suicide_game GameState.__init__)).
  - apply reachable_play.
  - reflexivity.
Defined.

(** X16.  A game the bot plays against itself never ends: whatever the
    shuffles, after any number of turns of the loop of [start] from a
    new game (its display calls aside) neither the bot nor [update] has
    raised, no [Pass] has been played and the loop is still running. *)
Theorem start_never_returns (str_hash : string → Z)
    (shuffles : nat → list (Z * Z) → list (Z * Z)) rounds :
  (∀ k l, shuffles k l ≡ₚ l) →
  ∃ w', Game.start str_hash shuffles rounds 0 GameState.__init__
        = (Ok false, w')
        ∧ num_of_passes w' = 0 ∧ GameState.is_ended w' = false.
Proof.
  intros Hperm.
  destruct (start_spec str_hash shuffles rounds 0%nat GameState.__init__ Hperm
              (playable_init) eq_refl) as (w' & Hrun & _ & Hp).
  exists w'. split; [done|]. split; [done|].
  unfold GameState.is_ended. unfold num_of_passes in Hp. by rewrite Hp.
Qed.

Lemma start_never_returns_witness :
  ∃ w', Game.start example_hash (λ _ l, reverse l) 4 0 GameState.__init__
        = (Ok false, w')
        ∧ num_of_passes w' = 0 ∧ GameState.is_ended w' = false.
Proof.
  apply (start_never_returns example_hash (λ _ l, reverse l) 4).
  intros _ l. apply reverse_Permutation.
Defined.

(* ===================================================================== *)
(** ** More on stones and moves                                        *)
(* ===================================================================== *)

(** X17.  On a board of the engine [pieces] yields, each once, exactly
    one piece per occupied intersection of the grid, with the colour of
    the stone there. *)
Theorem pieces_exact b :
  wf b →
  NoDup (Board.pieces b)
  ∧ ∀ p, p ∈ Board.pieces b
         ↔ on_grid (Piece.row p) (Piece.col p)
           ∧ Board.cell b (Piece.row p) (Piece.col p)
             = Ok (stone_state (Piece.color p)).
Proof.
  intros Hwf. split; [apply pieces_NoDup|]. intros p.
  rewrite elem_of_pieces. split.
  - intros Hp. split; [by apply stone_on_grid with b|].
    destruct Hp as (Hr & Hc & Hg). by apply cell_grid_at.
  - intros [[Hr Hc] Hcell]. split; [lia|]. split; [lia|].
    apply cell_grid_at; [lia..|done].
Qed.

Lemma pieces_exact_witness :
  let b := GameState.board (play example_hash scattered_game GameState.__init__) in
  NoDup (Board.pieces b)
  ∧ ∀ p, p ∈ Board.pieces b
         ↔ on_grid (Piece.row p) (Piece.col p)
           ∧ Board.cell b (Piece.row p) (Piece.col p)
             = Ok (stone_state (Piece.color p)).
Proof.
  apply (pieces_exact
           (GameState.board (play example_hash scattered_game GameState.__init__))).
  apply (bool_decide_unpack _). by vm_compute.
Defined.

(** The three boards of a move played out on the grid. *)
Lemma resolve_move_boards b r c color b2 :
  wf b → on_grid r c →
  resolve_move r c color b = (Ok tt, b2) →
  ∃ b0 b1,
    (∀ i j, grid_at b0 i j =
       if decide (i = Z.to_nat r ∧ j = Z.to_nat c)
       then Some (stone_state color) else grid_at b i j)
    ∧ (∀ i j, grid_at b1 i j =
         if decide (captured b0 (COLOR_REVERSE color) i j)
         then Some PositionState.EMPTY else grid_at b0 i j)
    ∧ (∀ i j, grid_at b2 i j =
         if decide (captured b1 color i j)
         then Some PositionState.EMPTY else grid_at b1 i j)
    ∧ Board.set_cell r c (stone_state color) b = Ok b0
    ∧ wf b0 ∧ wf b1 ∧ wf b2.
Proof.
  intros Hwf Hrc Hres.
  destruct (set_cell_spec b r c (stone_state color) Hwf Hrc)
    as (b0 & Hset & Hwf0 & _ & Hg0).
  destruct (remove_components_spec (COLOR_REVERSE color) b0 Hwf0)
    as (b1 & Hrm1 & Hwf1 & _ & Hg1).
  destruct (remove_components_spec color b1 Hwf1)
    as (b2' & Hrm2 & Hwf2 & _ & Hg2).
  unfold resolve_move, bind, assign in Hres.
  rewrite fill_new_piece_set_cell, Hset, Hrm1, Hrm2 in Hres.
  injection Hres as <-. by exists b0, b1.
Qed.

(** A move played out on a board puts a stone nowhere but on the
    intersection played and changes the colour of no stone. *)
Lemma resolve_move_frame b r c color b2 :
  wf b → on_grid r c →
  resolve_move r c color b = (Ok tt, b2) →
  ∀ r' c', on_grid r' c' →
    Board.cell b2 r' c' = Ok PositionState.EMPTY
    ∨ Board.cell b2 r' c'
      = (if decide (r' = r ∧ c' = c) then Ok (stone_state color)
         else Board.cell b r' c').
Proof.
  intros Hwf Hrc Hres r' c' [Hr' Hc'].
  destruct (resolve_move_boards b r c color b2 Hwf Hrc Hres)
    as (b0 & b1 & Hg0 & Hg1 & Hg2 & _).
  destruct (wf_cell b r' c' Hwf) as [ps Hps]; [done|].
  pose proof Hps as Hg. apply cell_grid_at in Hg; [|lia..].
  specialize (Hg2 (Z.to_nat r') (Z.to_nat c')).
  specialize (Hg1 (Z.to_nat r') (Z.to_nat c')).
  specialize (Hg0 (Z.to_nat r') (Z.to_nat c')).
  destruct (decide (captured b1 color _ _));
    [left; by apply cell_grid_at; [lia..|]|].
  destruct (decide (captured b0 (COLOR_REVERSE color) _ _));
    [left; apply cell_grid_at; [lia..|]; congruence|].
  right. destruct Hrc as [Hr Hc].
  destruct (decide (r' = r ∧ c' = c)) as [[-> ->]|Hd].
  - apply cell_grid_at; [lia..|].
    rewrite decide_True in Hg0 by done. congruence.
  - rewrite Hps. apply cell_grid_at; [lia..|].
    rewrite decide_False in Hg0 by (intros [? ?]; apply Hd; split; lia).
    congruence.
Qed.

(** X18.  In a game an accepted [Move] puts a stone nowhere but on the
    intersection played and changes the colour of no stone: afterwards
    every intersection of the grid is empty or holds what it held
    before, the intersection played counting as holding the mover's
    stone. *)
Theorem update_move_frame (str_hash : string → Z) w r c :
  reachable str_hash w → on_grid r c →
  fst (GameState.update str_hash (Move r c) w) = Ok tt →
  ∀ r' c', on_grid r' c' →
    let b' := GameState.board (snd (GameState.update str_hash (Move r c) w)) in
    Board.cell b' r' c' = Ok PositionState.EMPTY
    ∨ Board.cell b' r' c'
      = (if decide (r' = r ∧ c' = c) then Ok (stone_state (turn w))
         else Board.cell (GameState.board w) r' c').
Proof.
  intros Hw%reachable_invariant Hrc Hret r' c' Hrc'.
  destruct (update_outcome str_hash (Move r c) w Hw)
    as [(e & He & _)|(b2 & n & Hupd & _ & _ & _ & _ & Hmove)]; [congruence|].
  destruct (Hmove r c eq_refl) as (_ & Hres & _).
  rewrite Hupd. unfold GameState.board at 1 2.
  cbn [snd GameState.this GameState._board].
  by apply (resolve_move_frame (GameState.board w) r c (turn w) b2 (proj1 Hw)).
Qed.

Lemma update_move_frame_witness :
  let w := play example_hash chain_game GameState.__init__ in
  let b' := GameState.board
              (snd (GameState.update example_hash (Move 1 0) w)) in
  Board.cell b' 0 0 = Ok PositionState.EMPTY
  ∨ Board.cell b' 0 0
    = (if decide (0 = 1 ∧ 0 = 0) then Ok (stone_state (turn w))
       else Board.cell (GameState.board w) 0 0).
Proof.
  apply (update_move_frame example_hash
           (play example_hash chain_game GameState.__init__) 1 0).
  - apply reachable_play.
  - unfold on_grid. lia.
  - by vm_compute.
  - unfold on_grid. lia.
Defined.

(** Captures come before suicide, on a board. *)
Lemma capture_saves_placed_stone b r c color b0 b2 r' c' :
  wf b → on_grid r c →
  Board.set_cell r c (stone_state color) b = Ok b0 →
  resolve_move r c color b = (Ok tt, b2) →
  (r', c') ∈ Piece.adjacent_coordinates (Piece.Piece r c color) →
  Board.cell b0 r' c' = Ok (stone_state (COLOR_REVERSE color)) →
  empty_neighbours b0 (Piece.Piece r' c' (COLOR_REVERSE color)) = ∅ →
  Board.cell b2 r' c' = Ok PositionState.EMPTY
  ∧ Board.cell b2 r c = Ok (stone_state color).
Proof.
  intros Hwf Hrc Hset Hres Hadj Hopp Hnone.
  destruct (resolve_move_boards b r c color b2 Hwf Hrc Hres)
    as (b0' & b1 & Hg0 & Hg1 & Hg2 & Hset' & Hwf0 & Hwf1 & Hwf2).
  rewrite Hset in Hset'. injection Hset' as <-.
  assert (on_grid r' c') as [Hr' Hc']
    by (by apply (adjacent_on_grid _ (r', c')) in Hadj).
  destruct Hrc as [Hr Hc].
  assert (grid_at b1 (Z.to_nat r') (Z.to_nat c') = Some PositionState.EMPTY)
    as Hq1.
  { rewrite Hg1, decide_True; [done|]. by apply captured_cell; [lia..|]. }
  assert (grid_at b1 (Z.to_nat r) (Z.to_nat c) = Some (stone_state color))
    as Hp1.
  { rewrite Hg1, decide_False.
    - by rewrite Hg0, decide_True.
    - intros [Hstone _]. rewrite Hg0, decide_True in Hstone by done.
      injection Hstone as Hstone. symmetry in Hstone.
      by apply stone_state_reverse in Hstone. }
  split.
  - apply cell_grid_at; [lia..|]. rewrite Hg2. by case_decide.
  - apply cell_grid_at; [lia..|]. rewrite Hg2, decide_False; [done|].
    intros Hcap. apply captured_cell in Hcap as [_ Hnone1]; [|lia..].
    assert ((r', c') ∈ empty_neighbours b1 (Piece.Piece r c color)) as Hin.
    { apply elem_of_empty_neighbours. split; [done|].
      by apply cell_grid_at; [lia..|]. }
    rewrite Hnone1 in Hin. by apply not_elem_of_empty in Hin.
Qed.

(** X19.  Captures come before suicide.  In a game, when the stone of a
    [Move] onto a free intersection takes the last liberty of an
    opponent's stone next to it, [update] removes that stone and leaves
    the stone placed on the board, even if it had no liberty of its own
    when it was placed. *)
Theorem update_capture_before_suicide (str_hash : string → Z) w r c r' c' :
  reachable str_hash w → on_grid r c →
  Board.is_position_occupied (GameState.board w) r c = Ok false →
  (r', c') ∈ Piece.adjacent_coordinates (Piece.Piece r c (turn w)) →
  Board.cell (placed w r c) r' c' = Ok (stone_state (COLOR_REVERSE (turn w))) →
  empty_neighbours (placed w r c)
    (Piece.Piece r' c' (COLOR_REVERSE (turn w))) = ∅ →
  let w' := snd (GameState.update str_hash (Move r c) w) in
  fst (GameState.update str_hash (Move r c) w) = Ok tt
  ∧ Board.cell (GameState.board w') r' c' = Ok PositionState.EMPTY
  ∧ Board.cell (GameState.board w') r c = Ok (stone_state (turn w)).
Proof.
  intros Hw%reachable_invariant Hrc Hocc Hadj Hopp Hnone.
  destruct (update_outcome str_hash (Move r c) w Hw)
    as [(e & _ & _ & _ & Hne)|(b2 & n & Hupd & _ & _ & _ & _ & Hmove)];
    [by destruct (Hne r c eq_refl)|].
  destruct (Hmove r c eq_refl) as (_ & Hres & _).
  rewrite Hupd. unfold GameState.board at 1 2.
  cbn [fst snd GameState.this GameState._board]. split; [done|].
  destruct (set_cell_spec (GameState.board w) r c (stone_state (turn w))
              (proj1 Hw) Hrc) as (b0 & Hset & _).
  assert (placed w r c = b0) as Hplaced
    by (unfold placed; by rewrite fill_new_piece_set_cell, Hset).
  rewrite Hplaced in Hopp, Hnone.
  by apply (capture_saves_placed_stone (GameState.board w) r c (turn w) b0
              b2 r' c' (proj1 Hw)).
Qed.

Lemma update_capture_before_suicide_witness :
  let w := play example_hash
             [Move 0 1; Move 0 2; Move 1 0; Move 1 3; Move 2 1; Move 2 2;
              Pass; Move 1 1] GameState.__init__ in
  let w' := snd (GameState.update example_hash (Move 1 2) w) in
  fst (GameState.update example_hash (Move 1 2) w) = Ok tt
  ∧ Board.cell (GameState.board w') 1 1 = Ok PositionState.EMPTY
  ∧ Board.cell (GameState.board w') 1 2 = Ok (stone_state (turn w)).
Proof.
  apply (update_capture_before_suicide example_hash
           (play example_hash
              [Move 0 1; Move 0 2; Move 1 0; Move 1 3; Move 2 1; Move 2 2;
               Pass; Move 1 1] GameState.__init__) 1 2 1 1).
  - apply reachable_play.
  - unfold on_grid. lia.
  - by vm_compute.
  - apply (bool_decide_unpack _). by vm_compute.
  - by vm_compute.
  - by vm_compute.
Defined.

(** X20.  A game comes out the same whatever the interpreter's string
    hash: the same actions lead from a new game to the same world, with
    the same boards, turn, pass counter and history. *)
Theorem play_same_under_any_hash (h1 h2 : string → Z) actions :
  play h1 actions GameState.__init__ = play h2 actions GameState.__init__.
Proof.
  assert (∀ w, invariant w → play h1 actions w = play h2 actions w) as H.
  { induction actions as [|a actions IH]; intros w Hw; [done|].
    cbn [play]. rewrite (update_hash_irrelevant h1 h2 a w Hw).
    apply IH. by apply update_invariant. }
  apply H, invariant_init.
Qed.
